(** * MichaelBotPy: the music cog ([categories/music.py])

    A shallow embedding of the per-guild music controller: the track
    queue, the controller loop, the reaction menu and the commands of the
    [Music] cog, followed by the properties of the playback specification
    that are settled against them.

    Conventions.
    - A Python [int] is a [Z].  A reference that is either an object or
      [None] is an [option].
    - [asyncio.Queue()] (unbounded) is the list of its items, head first:
      [put] appends and never suspends, [get] removes the head and
      suspends on the empty list.
    - A coroutine of the cog is a function in the monad [Cmd]: it threads
      the controller object it works on, logs what it sends to Discord and
      to the audio node, and ends by returning, raising or suspending.
    - The objects of class [MusicController] live in a heap; the cog's
      dictionary [controllers] maps a guild id to the address of its
      controller. *)

From Stdlib Require Import ZArith String List Bool Lia.
From stdpp Require Import base option list gmap strings pretty.

Local Open Scope Z_scope.

(** ** Data model *)

Record User := { user_id : Z; user_name : string }.

(** [class Track(wavelink.Track)]: the attributes the cog reads. *)
Record Track := {
  track_id : string;
  title : string;
  uri : string;
  duration : Z;
  thumb : option string;
  requester : User
}.

(** A variable that holds a [Track] or [None]. *)
Abbreviation TrackRef := (option Track).

(** [commands.Context]: the attributes the cog reads or overwrites.  The
    command is kept by its qualified name. *)
Record Context := {
  author : User;
  guild : Z;
  ctx_channel : Z;
  command : option string
}.

(** The rendered status message of the menu. *)
Record Message := { message_channel : Z }.

(** [wavelink.Player]: the properties the commands read.  They are kept up
    to date by the wavelink client, which is not part of the sources. *)
Record Player := {
  is_connected : bool;
  is_playing : bool;
  paused : bool
}.

(** [class InteractiveMenu(menus.Menu)]. *)
Record InteractiveMenu := {
  menu_ctx : option Context;
  message : option Message;
  running : bool
}.

(** [class MusicController]. *)
Record MusicController := {
  guild_id : Z;
  channel : option Z;
  next : bool;
  queue : list TrackRef;
  volume : Z;
  is_single_loop : bool;
  is_queue_loop : bool;
  current_track : TrackRef;
  player : option Player;
  menu : InteractiveMenu
}.

Definition set_channel (v : option Z) (c : MusicController) : MusicController :=
  {| guild_id := guild_id c; channel := v; next := next c; queue := queue c;
     volume := volume c; is_single_loop := is_single_loop c;
     is_queue_loop := is_queue_loop c; current_track := current_track c;
     player := player c; menu := menu c |}.

Definition set_next (v : bool) (c : MusicController) : MusicController :=
  {| guild_id := guild_id c; channel := channel c; next := v; queue := queue c;
     volume := volume c; is_single_loop := is_single_loop c;
     is_queue_loop := is_queue_loop c; current_track := current_track c;
     player := player c; menu := menu c |}.

Definition set_queue (v : list TrackRef) (c : MusicController) : MusicController :=
  {| guild_id := guild_id c; channel := channel c; next := next c; queue := v;
     volume := volume c; is_single_loop := is_single_loop c;
     is_queue_loop := is_queue_loop c; current_track := current_track c;
     player := player c; menu := menu c |}.

Definition set_volume (v : Z) (c : MusicController) : MusicController :=
  {| guild_id := guild_id c; channel := channel c; next := next c; queue := queue c;
     volume := v; is_single_loop := is_single_loop c;
     is_queue_loop := is_queue_loop c; current_track := current_track c;
     player := player c; menu := menu c |}.

Definition set_is_single_loop (v : bool) (c : MusicController) : MusicController :=
  {| guild_id := guild_id c; channel := channel c; next := next c; queue := queue c;
     volume := volume c; is_single_loop := v;
     is_queue_loop := is_queue_loop c; current_track := current_track c;
     player := player c; menu := menu c |}.

Definition set_is_queue_loop (v : bool) (c : MusicController) : MusicController :=
  {| guild_id := guild_id c; channel := channel c; next := next c; queue := queue c;
     volume := volume c; is_single_loop := is_single_loop c;
     is_queue_loop := v; current_track := current_track c;
     player := player c; menu := menu c |}.

Definition set_current_track (v : TrackRef) (c : MusicController) : MusicController :=
  {| guild_id := guild_id c; channel := channel c; next := next c; queue := queue c;
     volume := volume c; is_single_loop := is_single_loop c;
     is_queue_loop := is_queue_loop c; current_track := v;
     player := player c; menu := menu c |}.

Definition set_player (v : option Player) (c : MusicController) : MusicController :=
  {| guild_id := guild_id c; channel := channel c; next := next c; queue := queue c;
     volume := volume c; is_single_loop := is_single_loop c;
     is_queue_loop := is_queue_loop c; current_track := current_track c;
     player := v; menu := menu c |}.

Definition set_menu (v : InteractiveMenu) (c : MusicController) : MusicController :=
  {| guild_id := guild_id c; channel := channel c; next := next c; queue := queue c;
     volume := volume c; is_single_loop := is_single_loop c;
     is_queue_loop := is_queue_loop c; current_track := current_track c;
     player := player c; menu := v |}.

(** ** Effects and the command monad *)

Inductive Exn :=
  | AttributeError
  | KeyError
  | CommandOnCooldown.

(** What a coroutine sends out, in order. *)
Inductive Effect :=
  | Reply (text : string)                      (* ctx.reply / ctx.send *)
  | ChannelSend (ch : Z) (now_playing : TrackRef) (* controller.channel.send *)
  | PlayerSetVolume (v : Z)
  | PlayerPlay (t : TrackRef)
  | PlayerStop
  | PlayerDisconnect
  | PlayerSetPause (b : bool)
  | MessageSend (ch : Z)                       (* send_initial_message *)
  | MessageEdit (m : Message) (now_playing : Track) (queue_length : Z)
  | MessageDelete (m : Message)
  | CommandError (e : Exn).                    (* command.dispatch_error *)

Inductive Res (A : Type) :=
  | Ret (a : A)
  | Raise (e : Exn)
  | Suspend.
Arguments Ret {A} a.
Arguments Raise {A} e.
Arguments Suspend {A}.

Definition Cmd (A : Type) : Type :=
  MusicController -> MusicController * list Effect * Res A.

Definition ret {A} (a : A) : Cmd A := fun c => (c, [], Ret a).

Definition bind {A B} (m : Cmd A) (k : A -> Cmd B) : Cmd B := fun c =>
  match m c with
  | (c1, e1, Ret a) => let '(c2, e2, r) := k a c1 in (c2, e1 ++ e2, r)
  | (c1, e1, Raise e) => (c1, e1, Raise e)
  | (c1, e1, Suspend) => (c1, e1, Suspend)
  end.

Notation "x <- m ;; k" := (bind m (fun x => k))
  (at level 100, m at next level, right associativity).
Notation "m ;; k" := (bind m (fun _ => k))
  (at level 100, right associativity).

Definition read {A} (f : MusicController -> A) : Cmd A := fun c => (c, [], Ret (f c)).
Definition modify (f : MusicController -> MusicController) : Cmd unit :=
  fun c => (f c, [], Ret tt).
Definition emit (e : Effect) : Cmd unit := fun c => (c, [e], Ret tt).
Definition raise {A} (e : Exn) : Cmd A := fun c => (c, [], Raise e).
Definition suspend {A} : Cmd A := fun c => (c, [], Suspend).

Definition reply (text : string) : Cmd unit := emit (Reply text).

(** ** [asyncio.Queue] *)

Definition qsize (q : list TrackRef) : Z := Z.of_nat (length q).

Definition empty (q : list TrackRef) : bool :=
  match q with [] => true | _ => false end.

(** [await controller.queue.put(x)] *)
Definition queue_put (x : TrackRef) : Cmd unit :=
  modify (fun c => set_queue (queue c ++ [x]) c).

(** [await controller.queue.get()] *)
Definition queue_get : Cmd TrackRef := fun c =>
  match queue c with
  | [] => (c, [], Suspend)
  | x :: q => (set_queue q c, [], Ret x)
  end.

(** [deque.insert(i, x)]: like [list.insert], an index past the end appends
    and a negative index counts from the end, stopping at the front. *)
Definition deque_insert (i : Z) (x : TrackRef) (q : list TrackRef) : list TrackRef :=
  let n := qsize q in
  let k := if i <? 0 then Z.max 0 (n + i) else Z.min i n in
  take (Z.to_nat k) q ++ x :: drop (Z.to_nat k) q.

(** [x.title] on a reference that may be [None]. *)
Definition attr_title (x : TrackRef) : Cmd string :=
  match x with
  | Some t => ret (title t)
  | None => raise AttributeError
  end.

(** ** The reaction menu, first part *)

Module InteractiveMenu.

Definition set_message (v : option Message) (m : InteractiveMenu) : InteractiveMenu :=
  {| menu_ctx := menu_ctx m; message := v; running := running m |}.

Definition set_running (v : bool) (m : InteractiveMenu) : InteractiveMenu :=
  {| menu_ctx := menu_ctx m; message := message m; running := v |}.

Definition set_menu_ctx (v : option Context) (m : InteractiveMenu) : InteractiveMenu :=
  {| menu_ctx := v; message := message m; running := running m |}.

(** [InteractiveMenu()] *)
Definition init : InteractiveMenu :=
  {| menu_ctx := None; message := None; running := false |}.

(** [send_initial_message]: [ctx.send(embed = Embed(title = "Placeholder"))]. *)
Definition send_initial_message (ctx : Context) : Cmd Message :=
  emit (MessageSend (ctx_channel ctx)) ;;
  ret {| message_channel := ctx_channel ctx |}.

(** Modelled from the spec: [menus.Menu.start] of discord-ext-menus, which
    is not part of the sources.  The surface is "started lazily": it
    remembers the invoking context, renders its status message when none
    is rendered yet, and begins to listen to button presses. *)
Definition start (ctx : Context) : Cmd unit :=
  modify (fun c => set_menu (set_menu_ctx (Some ctx) (menu c)) c) ;;
  msg <- read (fun c => message (menu c)) ;;
  match msg with
  | None =>
      m <- send_initial_message ctx ;;
      modify (fun c => set_menu (set_message (Some m) (menu c)) c)
  | Some _ => ret tt
  end ;;
  modify (fun c => set_menu (set_running true (menu c)) c).

(** Modelled from the spec: [menus.Menu.stop] of discord-ext-menus, which
    is not part of the sources; it "terminates the surface's own
    event-listening lifecycle". *)
Definition stop (m : InteractiveMenu) : InteractiveMenu := set_running false m.

(** [update_context]: a shallow copy of the menu's context whose author is
    the member who pressed the button.  A menu that was never started has
    no context to copy. *)
Definition update_context (m : InteractiveMenu) (payload_member : User) : option Context :=
  match menu_ctx m with
  | None => None
  | Some ctx =>
      Some {| author := payload_member; guild := guild ctx;
              ctx_channel := ctx_channel ctx; command := command ctx |}
  end.

(** [update_menu(controller)]: builds the embed from the controller and
    edits the rendered message.  The attribute reads that fail on [None]
    are kept, in the order of the source. *)
Definition update_menu : Cmd unit :=
  cur <- read current_track ;;
  match cur with
  | None => raise AttributeError          (* current_track.duration *)
  | Some t =>
      q <- read queue ;;
      p <- read player ;;
      match p with
      | None => raise AttributeError      (* controller.player.volume *)
      | Some _ =>
          (if empty q then ret tt
           else match q with
                | Some _ :: _ => ret tt
                | _ => raise AttributeError   (* upcoming[0].title *)
                end) ;;
          msg <- read (fun c => message (menu c)) ;;
          match msg with
          | None => raise AttributeError  (* self.message.edit *)
          | Some m => emit (MessageEdit m t (qsize q))
          end
      end
  end.

End InteractiveMenu.

(** [MusicController.__init__]; [p] is what [bot.wavelink.get_player]
    returns for the guild.  The loop task it creates is recorded by the
    caller, see [Music.get_controller]. *)
Definition MusicController_init (p : Player) (gid : Z) : MusicController :=
  {| guild_id := gid; channel := None; next := false; queue := [];
     volume := 50; is_single_loop := false; is_queue_loop := false;
     current_track := None; player := Some p;
     menu := InteractiveMenu.init |}.

(** ** The commands of the cog, on the controller object

    Every command starts with [controller = self.get_controller(ctx)] and
    then works on that object.  This section has the part after the lookup;
    the commands themselves, with the lookup, follow in [Music]. *)

Module MusicBody.

Local Open Scope string_scope.
Local Open Scope Z_scope.

(** The tail shared by most commands:
    [if controller.menu.message is None: start, update_menu; else: update_menu]. *)
Definition show_menu (ctx : Context) : Cmd unit :=
  msg <- read (fun c => message (menu c)) ;;
  match msg with
  | None => InteractiveMenu.start ctx ;; InteractiveMenu.update_menu
  | Some _ => InteractiveMenu.update_menu
  end.

(** [controller.player.<property>] *)
Definition player_attr {A} (f : Player -> A) : Cmd A :=
  p <- read player ;;
  match p with
  | Some p => ret (f p)
  | None => raise AttributeError
  end.

(** [controller.player.<method>(...)] *)
Definition player_call (e : Effect) : Cmd unit :=
  p <- read player ;;
  match p with
  | Some _ => emit e
  | None => raise AttributeError
  end.

(** [while not controller.queue.empty(): await controller.queue.get()];
    the fuel is the number of items at the start. *)
Fixpoint clear_queue (fuel : nat) : Cmd unit :=
  match fuel with
  | O => ret tt
  | S fuel' =>
      q <- read queue ;;
      if empty q then ret tt
      else (_ <- queue_get ;; clear_queue fuel')
  end.

(** The first loop of [queue_move] and [queue_remove]: item [index] goes
    to [removed_track], the others to [fake_queue];
    [n] iterations remain of [for i in range(0, max_size)]. *)
Fixpoint drain (n : nat) (i index : Z) (fake_queue : list TrackRef)
    (removed_track : TrackRef) : Cmd (list TrackRef * TrackRef) :=
  match n with
  | O => ret (fake_queue, removed_track)
  | S n' =>
      x <- queue_get ;;
      if i =? index then drain n' (i + 1) index fake_queue x
      else drain n' (i + 1) index (fake_queue ++ [x]) removed_track
  end.

(** The second loop: [controller.queue.put(await fake_queue.get())]. *)
Fixpoint refill (n : nat) (fake_queue : list TrackRef) : Cmd (list TrackRef) :=
  match n with
  | O => ret fake_queue
  | S n' =>
      match fake_queue with
      | [] => suspend
      | x :: rest => queue_put x ;; refill n' rest
      end
  end.

Definition queue_move (ctx : Context) (source_index destination_index : Z) : Cmd unit :=
  max_size <- read (fun c => qsize (queue c)) ;;
  let source_index := source_index - 1 in
  let destination_index := destination_index - 1 in
  if (source_index <? 0) || (source_index >? max_size - 1)
     || (destination_index <? 0) || (destination_index >? max_size - 1)
  then reply "Index out of range."
  else
    r <- drain (Z.to_nat max_size) 0 source_index [] None ;;
    let '(fake_queue, removed_track) := r in
    let max_size := max_size - 1 in
    _ <- refill (Z.to_nat max_size) fake_queue ;;
    modify (fun c => set_queue (deque_insert destination_index removed_track (queue c)) c) ;;
    t <- attr_title removed_track ;;
    reply ("**Track** `" +:+ t +:+ "` **moved from " +:+ pretty (source_index + 1)
           +:+ " to " +:+ pretty (destination_index + 1) +:+ ".**").

Definition queue_remove (ctx : Context) (index : Z) : Cmd unit :=
  max_size <- read (fun c => qsize (queue c)) ;;
  let index := index - 1 in
  if (index <? 0) || (index >? max_size - 1)
  then reply "Index out of range."
  else
    r <- drain (Z.to_nat max_size) 0 index [] None ;;
    let '(fake_queue, removed_track) := r in
    let max_size := max_size - 1 in
    _ <- refill (Z.to_nat max_size) fake_queue ;;
    t <- attr_title removed_track ;;
    reply ("**Track removed:** `" +:+ t +:+ "`.").

Definition truthy {A} (x : option A) : bool :=
  match x with Some _ => true | None => false end.

Definition repeat (ctx : Context) : Cmd unit :=
  modify (fun c => set_is_single_loop (negb (is_single_loop c)) c) ;;
  c <- read (fun c => c) ;;
  if is_single_loop c && negb (truthy (player c)) then
    reply "There's nothing to loop." ;;
    modify (set_is_single_loop false)
  else
    (if is_single_loop c then reply "🔂 **Enabled!**" else reply "🔂 **Disabled!**") ;;
    show_menu ctx.

(** [ctx.invoke(self.repeat)] runs [repeat] on the same context, hence on
    the same controller object; what [repeat] raises propagates. *)
Definition queue_loop (ctx : Context) : Cmd unit :=
  modify (fun c => set_is_queue_loop (negb (is_queue_loop c)) c) ;;
  c <- read (fun c => c) ;;
  (if is_queue_loop c && is_single_loop c then repeat ctx else ret tt) ;;
  c <- read (fun c => c) ;;
  (if is_queue_loop c then reply "🔁 **Enabled!**" else reply "🔁 **Disabled!**") ;;
  show_menu ctx.

Definition pause (ctx : Context) : Cmd unit :=
  playing <- player_attr is_playing ;;
  if negb playing then reply "There's nothing to pause you dummy."
  else
    p <- player_attr paused ;;
    (if p then player_call (PlayerSetPause false) ;; reply "Resumed!"
     else player_call (PlayerSetPause true) ;; reply "Paused!") ;;
    show_menu ctx.

Definition skip (ctx : Context) : Cmd unit :=
  playing <- player_attr is_playing ;;
  if negb playing then reply "There are no songs to skip."
  else
    player_call PlayerStop ;;
    reply "Skipped!" ;;
    show_menu ctx.

Definition stop (ctx : Context) : Cmd unit :=
  playing <- player_attr is_playing ;;
  if negb playing then reply "There's nothing to stop."
  else
    player_call PlayerStop ;;
    modify (set_is_queue_loop false) ;;
    modify (set_is_single_loop false) ;;
    n <- read (fun c => length (queue c)) ;;
    clear_queue n ;;
    reply "Stopped the player.".

Definition volume (ctx : Context) (new_volume : Z) : Cmd unit :=
  let new_volume := Z.max (Z.min new_volume 200) 0 in
  modify (set_volume new_volume) ;;
  player_call (PlayerSetVolume new_volume) ;;
  reply ("Set volume to " +:+ pretty new_volume +:+ ".") ;;
  show_menu ctx.

(** [random.shuffle(x)]: for [i] from [len(x) - 1] down to [1], swap
    [x[i]] with [x[j]], [j] drawn below [i + 1].  The draws are given. *)
Fixpoint shuffle (i : nat) (draws : list nat) (x : list TrackRef) : list TrackRef :=
  match i with
  | O => x
  | S i' =>
      let j := (List.hd O draws `mod` (S i))%nat in
      match x !! i, x !! j with
      | Some xi, Some xj => shuffle i' (List.tl draws) (<[j:=xi]> (<[i:=xj]> x))
      | _, _ => x
      end
  end.

Definition queue_shuffle (ctx : Context) (draws : list nat) : Cmd unit :=
  q <- read queue ;;
  if empty q then reply "There's nothing to shuffle!"
  else
    modify (fun c => set_queue (shuffle (length (queue c) - 1) draws (queue c)) c) ;;
    reply "🔀 **Shuffled**!" ;;
    show_menu ctx.

(** [disconnect], up to [player.disconnect()]; the cog then pops the
    controller from its dictionary. *)
Definition disconnect (ctx : Context) : Cmd unit :=
  player_call PlayerStop ;;
  n <- read (fun c => length (queue c)) ;;
  clear_queue n ;;
  player_call PlayerDisconnect.

End MusicBody.

(** ** [MusicController.controller_loop]

    The coroutine is cut at its [await]s.  A program point names the
    statement the task executes next; a step runs from there to the next
    [await] that hands control back to the event loop. *)

Module ControllerLoop.

Inductive Pc :=
  | AtStart   (* wait_until_ready(); player.set_volume(self.volume) *)
  | AtClear   (* next.clear(); if not self.is_single_loop *)
  | AtGet     (* self.current_track = await self.queue.get() *)
  | AtPlay    (* await self.player.play(self.current_track) *)
  | AtSend    (* await self.channel.send(...) *)
  | AtMenu    (* if self.menu.message is not None: update_menu(self) *)
  | AtWait.   (* await self.next.wait(); if self.is_queue_loop: queue.put *)

Definition loop_step (pc : Pc) : Cmd Pc :=
  match pc with
  | AtStart =>
      v <- read volume ;;
      MusicBody.player_call (PlayerSetVolume v) ;;
      ret AtClear
  | AtClear =>
      modify (set_next false) ;;
      single <- read is_single_loop ;;
      if negb single then ret AtGet else ret AtPlay
  | AtGet =>
      t <- queue_get ;;
      modify (set_current_track t) ;;
      ret AtPlay
  | AtPlay =>
      t <- read current_track ;;
      MusicBody.player_call (PlayerPlay t) ;;
      ret AtSend
  | AtSend =>
      ch <- read channel ;;
      match ch with
      | None => raise AttributeError
      | Some ch =>
          t <- read current_track ;;
          emit (ChannelSend ch t) ;;
          ret AtMenu
      end
  | AtMenu =>
      msg <- read (fun c => message (menu c)) ;;
      match msg with
      | Some _ => InteractiveMenu.update_menu
      | None => ret tt
      end ;;
      ret AtWait
  | AtWait =>
      set <- read next ;;
      if set then
        ql <- read is_queue_loop ;;
        (if ql then (t <- read current_track ;; queue_put t) else ret tt) ;;
        ret AtClear
      else suspend
  end.

(** [fuel] steps in a row, with no other task in between. *)
Fixpoint run (fuel : nat) (pc : Pc) : Cmd Pc :=
  match fuel with
  | O => ret pc
  | S fuel' => pc' <- loop_step pc ;; run fuel' pc'
  end.

(** A loop task of the event loop. *)
Inductive TaskState :=
  | Running (pc : Pc)
  | Failed (e : Exn).

End ControllerLoop.

(** ** The cog *)

(** The state of [class Music] and of what it reaches through [self.bot]. *)
Record MusicCog := {
  controllers : gmap Z nat;       (* self.controllers: guild id to controller *)
  heap : list MusicController;    (* the MusicController objects, by address *)
  tasks : list (nat * ControllerLoop.TaskState);
                                  (* the controller_loop tasks, by creation *)
  wavelink : gmap Z Player;       (* bot.wavelink: the player of a guild *)
  cooldowns : gset (string * Z);  (* the used-up cooldown buckets *)
  entropy : list (list nat)       (* the draws of the coming shuffles *)
}.

Definition set_controllers (v : gmap Z nat) (w : MusicCog) : MusicCog :=
  {| controllers := v; heap := heap w; tasks := tasks w; wavelink := wavelink w;
     cooldowns := cooldowns w; entropy := entropy w |}.

Definition set_heap (v : list MusicController) (w : MusicCog) : MusicCog :=
  {| controllers := controllers w; heap := v; tasks := tasks w; wavelink := wavelink w;
     cooldowns := cooldowns w; entropy := entropy w |}.

Definition set_tasks (v : list (nat * ControllerLoop.TaskState)) (w : MusicCog) : MusicCog :=
  {| controllers := controllers w; heap := heap w; tasks := v; wavelink := wavelink w;
     cooldowns := cooldowns w; entropy := entropy w |}.

Definition set_cooldowns (v : gset (string * Z)) (w : MusicCog) : MusicCog :=
  {| controllers := controllers w; heap := heap w; tasks := tasks w; wavelink := wavelink w;
     cooldowns := v; entropy := entropy w |}.

Definition set_entropy (v : list (list nat)) (w : MusicCog) : MusicCog :=
  {| controllers := controllers w; heap := heap w; tasks := tasks w; wavelink := wavelink w;
     cooldowns := cooldowns w; entropy := v |}.

(** A coroutine of the cog. *)
Definition CogCmd (A : Type) : Type := MusicCog -> MusicCog * list Effect * Res A.

(** Events of the wavelink node, with the guild of [event.player]. *)
Inductive Event :=
  | TrackStart (gid : Z)
  | TrackEnd (gid : Z)
  | TrackException (gid : Z)
  | TrackStuck (gid : Z).

Module Music.

Local Open Scope string_scope.
Local Open Scope Z_scope.

(** [Music.__init__]: no controllers yet. *)
Definition init (players : gmap Z Player) (draws : list (list nat)) : MusicCog :=
  {| controllers := ∅; heap := []; tasks := []; wavelink := players;
     cooldowns := ∅; entropy := draws |}.

(** [bot.wavelink.get_player(guild_id)] *)
Definition get_player (w : MusicCog) (gid : Z) : Player :=
  default {| is_connected := false; is_playing := false; paused := false |}
          (wavelink w !! gid).

(** [get_controller]: [gid] is [value.guild.id] of a context or
    [value.guild_id] of a player.  Constructing a controller allocates
    the object and creates its [controller_loop] task. *)
Definition get_controller (gid : Z) (w : MusicCog) : MusicCog * nat :=
  match controllers w !! gid with
  | None =>
      let a := length (heap w) in
      let c := MusicController_init (get_player w gid) gid in
      (set_tasks (tasks w ++ [(a, ControllerLoop.Running ControllerLoop.AtStart)])
         (set_heap (heap w ++ [c])
            (set_controllers (<[gid := a]> (controllers w)) w)), a)
  | Some a => (w, a)
  end.

(** [cog_unload] *)
Definition cog_unload (w : MusicCog) : MusicCog := set_controllers ∅ w.

(** [controller = self.get_controller(...)] followed by code that works
    on that object. *)
Definition with_controller {A} (gid : Z) (body : Cmd A) : CogCmd A := fun w =>
  let '(w1, a) := get_controller gid w in
  match heap w1 !! a with
  | None => (w1, [], Raise KeyError)
  | Some c =>
      let '(c', effs, r) := body c in
      (set_heap (<[a := c']> (heap w1)) w1, effs, r)
  end.

(** [on_event_hook]: the node hook callback. *)
Definition on_event_hook (event : Event) : CogCmd unit :=
  match event with
  | TrackEnd gid | TrackException gid =>
      with_controller gid (modify (set_next true))
  | _ => fun w => (w, [], Ret tt)
  end.

Definition disconnect (ctx : Context) : CogCmd unit := fun w =>
  match with_controller (guild ctx) (MusicBody.disconnect ctx) w with
  | (w1, effs, Ret _) =>
      match controllers w1 !! guild ctx with
      | None => (w1, effs, Raise KeyError)     (* self.controllers.pop *)
      | Some _ =>
          (set_controllers (delete (guild ctx) (controllers w1)) w1,
           (effs ++ [Reply "**Successfully disconnected.**"])%list, Ret tt)
      end
  | other => other
  end.

Definition pause (ctx : Context) : CogCmd unit :=
  with_controller (guild ctx) (MusicBody.pause ctx).

Definition repeat (ctx : Context) : CogCmd unit :=
  with_controller (guild ctx) (MusicBody.repeat ctx).

Definition queue_loop (ctx : Context) : CogCmd unit :=
  with_controller (guild ctx) (MusicBody.queue_loop ctx).

Definition queue_move (ctx : Context) (source_index destination_index : Z) : CogCmd unit :=
  with_controller (guild ctx) (MusicBody.queue_move ctx source_index destination_index).

Definition queue_remove (ctx : Context) (index : Z) : CogCmd unit :=
  with_controller (guild ctx) (MusicBody.queue_remove ctx index).

Definition queue_shuffle (ctx : Context) : CogCmd unit := fun w =>
  let '(w1, effs, r) :=
    with_controller (guild ctx) (MusicBody.queue_shuffle ctx (List.hd [] (entropy w))) w in
  (set_entropy (List.tl (entropy w1)) w1, effs, r).

Definition volume (ctx : Context) (new_volume : Z) : CogCmd unit :=
  with_controller (guild ctx) (MusicBody.volume ctx new_volume).

Definition skip (ctx : Context) : CogCmd unit :=
  with_controller (guild ctx) (MusicBody.skip ctx).

Definition stop (ctx : Context) : CogCmd unit :=
  with_controller (guild ctx) (MusicBody.stop ctx).

(** *** The command table and the cooldowns

    The commands that the menu resolves by name, each with the period of
    its [@commands.cooldown(rate = 1, per = ..., type = BucketType.guild)]
    in milliseconds. *)
Record Command := {
  qualified_name : string;
  cooldown_per : Z;
  callback : Context -> CogCmd unit
}.

Definition all_commands : list Command :=
  [ {| qualified_name := "disconnect"; cooldown_per := 5000; callback := disconnect |};
    {| qualified_name := "pause"; cooldown_per := 1000; callback := pause |};
    {| qualified_name := "repeat"; cooldown_per := 3000; callback := repeat |};
    {| qualified_name := "queue loop"; cooldown_per := 3000; callback := queue_loop |};
    {| qualified_name := "queue shuffle"; cooldown_per := 5000; callback := queue_shuffle |};
    {| qualified_name := "skip"; cooldown_per := 5000; callback := skip |};
    {| qualified_name := "stop"; cooldown_per := 5000; callback := stop |} ].

(** [bot.get_command(name)] *)
Definition get_command (name : string) : option Command :=
  List.find (fun cmd => String.eqb (qualified_name cmd) name) all_commands.

(** The bucket of a [BucketType.guild] cooldown: one per guild. *)
Definition bucket_key (ctx : Context) : Z := guild ctx.

(** Modelled from the spec: the "per-operation rate limit" of the command
    layer (discord.py's cooldown mapping, which is not part of the
    sources).  With [rate = 1] a bucket is either free or used up; a
    command invoked on a used-up bucket is refused. *)
Definition on_cooldown (name : string) (ctx : Context) (w : MusicCog) : bool :=
  bool_decide ((name, bucket_key ctx) ∈ cooldowns w).

Definition update_rate_limit (name : string) (ctx : Context) (w : MusicCog) : MusicCog :=
  set_cooldowns ({[ (name, bucket_key ctx) ]} ∪ cooldowns w) w.

(** Modelled from the spec: [Command.reset_cooldown(ctx)] of discord.py. *)
Definition reset_cooldown (name : string) (ctx : Context) (w : MusicCog) : MusicCog :=
  set_cooldowns (cooldowns w ∖ {[ (name, bucket_key ctx) ]}) w.

(** Modelled from the spec: [bot.invoke(ctx)] of discord.py, the
    "resolve and invoke" of the command layer, used by text commands and
    by the menu alike.  It runs the command of the context behind its
    cooldown; what the command raises is handed to the error handlers and
    does not propagate.  The permission checks of the commands are taken
    to pass. *)
Definition invoke (ctx : Context) : CogCmd unit := fun w =>
  match command ctx with
  | None => (w, [], Ret tt)
  | Some name =>
      match get_command name with
      | None => (w, [], Ret tt)
      | Some cmd =>
          if on_cooldown name ctx w then (w, [CommandError CommandOnCooldown], Ret tt)
          else
            match callback cmd ctx (update_rate_limit name ctx w) with
            | (w1, effs, Raise e) => (w1, (effs ++ [CommandError e])%list, Ret tt)
            | other => other
            end
      end
  end.

(** The context of a text command typed by [user]. *)
Definition text_context (user : User) (gid ch : Z) (name : string) : Context :=
  {| author := user; guild := gid; ctx_channel := ch; command := Some name |}.

End Music.

(** ** The reaction menu, second part: the buttons

    [self] is the menu of the controller object at address [a]; the member
    is [payload.member]. *)

Module Buttons.

Local Open Scope string_scope.

Definition set_command (v : option string) (ctx : Context) : Context :=
  {| author := author ctx; guild := guild ctx; ctx_channel := ctx_channel ctx;
     command := v |}.

(** The four lines every handler starts with:
    [ctx = self.update_context(payload)],
    [ctx.command = self.bot.get_command(name)],
    [await self.bot.invoke(ctx)], [ctx.command.reset_cooldown(ctx)]. *)
Definition invoke_as (name : string) (a : nat) (member : User) : CogCmd unit := fun w =>
  match heap w !! a with
  | None => (w, [], Raise KeyError)
  | Some c =>
      match InteractiveMenu.update_context (menu c) member with
      | None => (w, [], Raise AttributeError)
      | Some ctx =>
          match Music.get_command name with
          | None =>
              (* invoke does nothing without a command; None.reset_cooldown *)
              (w, [], Raise AttributeError)
          | Some cmd =>
              let ctx := set_command (Some (Music.qualified_name cmd)) ctx in
              match Music.invoke ctx w with
              | (w1, effs, Ret _) =>
                  (Music.reset_cooldown (Music.qualified_name cmd) ctx w1, effs, Ret tt)
              | other => other
              end
          end
      end
  end.

(** [await self.message.delete()], [self.message = None], [self.stop()]. *)
Definition teardown (a : nat) : CogCmd unit := fun w =>
  match heap w !! a with
  | None => (w, [], Raise KeyError)
  | Some c =>
      match message (menu c) with
      | None => (w, [], Raise AttributeError)
      | Some m =>
          let menu' := InteractiveMenu.stop (InteractiveMenu.set_message None (menu c)) in
          (set_heap (<[a := set_menu menu' c]> (heap w)) w, [MessageDelete m], Ret tt)
      end
  end.

Definition on_pause_button (a : nat) (member : User) : CogCmd unit :=
  invoke_as "pause" a member.

Definition on_skip_button (a : nat) (member : User) : CogCmd unit :=
  invoke_as "skip" a member.

Definition on_shuffle_button (a : nat) (member : User) : CogCmd unit :=
  invoke_as "queue shuffle" a member.

Definition on_qloop_button (a : nat) (member : User) : CogCmd unit :=
  invoke_as "queue loop" a member.

Definition on_loop_button (a : nat) (member : User) : CogCmd unit :=
  invoke_as "repeat" a member.

Definition on_stop_button (a : nat) (member : User) : CogCmd unit := fun w =>
  match invoke_as "stop" a member w with
  | (w1, effs, Ret _) =>
      let '(w2, effs2, r) := teardown a w1 in (w2, effs ++ effs2, r)%list
  | other => other
  end.

Definition on_disconnect_button (a : nat) (member : User) : CogCmd unit := fun w =>
  match invoke_as "disconnect" a member w with
  | (w1, effs, Ret _) =>
      let '(w2, effs2, r) := teardown a w1 in (w2, effs ++ effs2, r)%list
  | other => other
  end.

(** The buttons, in the order of the class. *)
Inductive Button :=
  | PauseButton | SkipButton | ShuffleButton | QloopButton | LoopButton
  | StopButton | DisconnectButton.

Definition handler (b : Button) : nat -> User -> CogCmd unit :=
  match b with
  | PauseButton => on_pause_button
  | SkipButton => on_skip_button
  | ShuffleButton => on_shuffle_button
  | QloopButton => on_qloop_button
  | LoopButton => on_loop_button
  | StopButton => on_stop_button
  | DisconnectButton => on_disconnect_button
  end.

(** The name each button hands to [get_command]. *)
Definition button_command (b : Button) : string :=
  match b with
  | PauseButton => "pause"
  | SkipButton => "skip"
  | ShuffleButton => "queue shuffle"
  | QloopButton => "queue loop"
  | LoopButton => "repeat"
  | StopButton => "stop"
  | DisconnectButton => "disconnect"
  end.

(** Modelled from the spec: how [menus.Menu] of discord-ext-menus, which
    is not part of the sources, hands a press to its handler.  Only a
    surface that is listening processes button presses. *)
Definition press (b : Button) (a : nat) (member : User) : CogCmd unit := fun w =>
  match heap w !! a with
  | Some c => if running (menu c) then handler b a member w else (w, [], Ret tt)
  | None => (w, [], Ret tt)
  end.

End Buttons.

(** ** The event loop: one step of a [controller_loop] task *)

Module EventLoop.

Import ControllerLoop.

Definition step_task (i : nat) (w : MusicCog) : MusicCog * list Effect :=
  match tasks w !! i with
  | Some (a, Running pc) =>
      match heap w !! a with
      | None => (w, [])
      | Some c =>
          match loop_step pc c with
          | (c', effs, Ret pc') =>
              (set_tasks (<[i := (a, Running pc')]> (tasks w))
                 (set_heap (<[a := c']> (heap w)) w), effs)
          | (c', effs, Suspend) => (set_heap (<[a := c']> (heap w)) w, effs)
          | (c', effs, Raise e) =>
              (set_tasks (<[i := (a, Failed e)]> (tasks w))
                 (set_heap (<[a := c']> (heap w)) w), effs)
          end
      end
  | _ => (w, [])
  end.

(** The wavelink client refreshes the properties of the player that the
    controller at address [a] holds. *)
Definition player_update (a : nat) (p : Player) (w : MusicCog) : MusicCog :=
  match heap w !! a with
  | Some c => set_heap (<[a := set_player (Some p) c]> (heap w)) w
  | None => w
  end.

End EventLoop.

(** Every controller of the dictionary is an object of the heap, and every
    controller has the player that its constructor fetched. *)
Definition wf (w : MusicCog) : Prop :=
  map_Forall (fun _ a => (a < length (heap w))%nat) (controllers w) /\
  Forall (fun c => is_Some (player c)) (heap w).

(** ** Auxiliary definitions for the statements *)

(** What a command says about the track it took out of the queue: its
    reply names the track; the attribute read fails on [None]. *)
Definition report (text : string -> string) (x : TrackRef)
    : list Effect * Res unit :=
  match x with
  | Some t => ([Reply (text (title t))], Ret tt)
  | None => ([], Raise AttributeError)
  end.

Definition moved_text (source_index destination_index : Z) (t : string) : string :=
  ("**Track** `" +:+ t +:+ "` **moved from " +:+ pretty source_index
   +:+ " to " +:+ pretty destination_index +:+ ".**")%string.

Definition removed_text (t : string) : string :=
  ("**Track removed:** `" +:+ t +:+ "`.")%string.

(** The controllers that the two toggles reach from a fresh one. *)
Inductive toggled : MusicController -> Prop :=
  | toggled_init p gid : toggled (MusicController_init p gid)
  | toggled_repeat ctx c :
      toggled c -> toggled (fst (fst (MusicBody.repeat ctx c)))
  | toggled_queue_loop ctx c :
      toggled c -> toggled (fst (fst (MusicBody.queue_loop ctx c))).

(** A coroutine that does not wait: it returns or raises. *)
Definition returns {A S} (x : S * list Effect * Res A) : Prop := snd x <> Suspend.

(** A coroutine that leaves the controller's player attribute alone. *)
Definition keeps_player {A} (m : Cmd A) : Prop :=
  forall c, player (fst (fst (m c))) = player c.

(** One move of the cog: a command, a press, a node event, a step of a
    loop task, a refresh of a player, or the cog being unloaded. *)
Inductive cog_step : MusicCog -> MusicCog -> Prop :=
  | step_command {A} gid (body : Cmd A) w :
      keeps_player body ->
      cog_step w (fst (fst (Music.with_controller gid body w)))
  | step_invoke ctx w : cog_step w (fst (fst (Music.invoke ctx w)))
  | step_expire name ctx w : cog_step w (Music.reset_cooldown name ctx w)
  | step_press b a member w : cog_step w (fst (fst (Buttons.press b a member w)))
  | step_event event w : cog_step w (fst (fst (Music.on_event_hook event w)))
  | step_loop i w : cog_step w (fst (EventLoop.step_task i w))
  | step_player a p w : cog_step w (EventLoop.player_update a p w)
  | step_unload w : cog_step w (Music.cog_unload w).

Inductive reachable : MusicCog -> Prop :=
  | reachable_init players draws : reachable (Music.init players draws)
  | reachable_step w w' : reachable w -> cog_step w w' -> reachable w'.

(** ** Examples *)

Definition example_user : User := {| user_id := 7; user_name := "mike" |}.

Definition example_user2 : User := {| user_id := 8; user_name := "ann" |}.

Definition example_track (name : string) : TrackRef :=
  Some {| track_id := name; title := name; uri := name; duration := 1000;
          thumb := None; requester := example_user |}.

Definition example_queue : list TrackRef :=
  [example_track "A"; example_track "B"; example_track "C";
   example_track "D"; example_track "E"].

Definition example_player : Player :=
  {| is_connected := true; is_playing := true; paused := false |}.


Definition example_context : Context :=
  {| author := example_user; guild := 1; ctx_channel := 10; command := None |}.

(** A connected controller with two tracks queued and queue loop on. *)
Definition example_controller : MusicController :=
  set_is_queue_loop true
    (set_queue [example_track "A"; example_track "B"]
       (set_channel (Some 10) (MusicController_init example_player 1))).

(** A cog without controllers; the player of guild 1 is playing. *)
Definition example_players : gmap Z Player := {[ 1 := example_player ]}.

Definition example_cog : MusicCog := Music.init example_players [].

(** A cog whose menu is started: the single-loop toggle was used once in
    guild 1. *)
Definition example_cog_menu : MusicCog :=
  fst (fst (Music.repeat example_context example_cog)).

(** The controller of guild 1 in [example_cog_menu]. *)
Definition example_menu_controller : MusicController :=
  fst (fst (MusicBody.repeat example_context (MusicController_init example_player 1))).

(** ** Tactics *)

(** Index bounds over a concrete queue. *)
Ltac index_bounds := unfold qsize; simpl; lia.

(** All the shapes of a controller that the commands tell apart. *)
Ltac case_controller c :=
  destruct c as [?gid ?ch ?nx [|[?u|] ?q] ?v [|] [|] [?t|] [[[|] [|] [|]]|] [?mc [?m|] ?rn]].

(** ** More of the cog

    The commands and helpers below complete the model of the cog; they are
    written like the ones above. *)

Module MusicBodyExt.

Local Open Scope string_scope.
Local Open Scope Z_scope.

(** [queue_clear], after the lookup of the controller. *)
Definition queue_clear (ctx : Context) : Cmd unit :=
  n <- read (fun c => length (queue c)) ;;
  MusicBody.clear_queue n ;;
  reply "Cleared song queue!".

(** [resume], after the lookup of the controller. *)
Definition resume (ctx : Context) : Cmd unit :=
  playing <- MusicBody.player_attr is_playing ;;
  if negb playing then reply "There's nothing to resume from."
  else
    p <- MusicBody.player_attr paused ;;
    (if p then MusicBody.player_call (PlayerSetPause false) ;; reply "Resumed!"
     else reply "Player is not paused.") ;;
    MusicBody.show_menu ctx.

End MusicBodyExt.

(** ** Playback: the loop together with the finish events *)

Module Playback.

Import ControllerLoop.

(** The tracks handed to the player, in order. *)
Definition played (effs : list Effect) : list TrackRef :=
  omap (fun e => match e with PlayerPlay t => Some t | _ => None end) effs.

(** What [on_event_hook] does to the controller on a track end or a track
    exception: [controller.next.set()]. *)
Definition finished : Cmd unit := modify (set_next true).


(** With single loop: from the wait, the finish event, the wake-up and the
    next iteration up to its wait. *)
Definition replay : Cmd Pc :=
  finished ;;
  run 5 AtWait.

End Playback.

(** A coroutine that leaves an attribute [f] of the controller alone. *)
Definition preserves {A B} (f : MusicController -> B) (m : Cmd A) : Prop :=
  forall c, f (fst (fst (m c))) = f c.

(** The menu can be refreshed: when a message is rendered, there is a
    current track and the head of the queue, if any, is a track. *)
Definition renders (c : MusicController) : Prop :=
  forall m, message (menu c) = Some m ->
    is_Some (current_track c) /\ forall x, head (queue c) = Some x -> is_Some x.

(** The calls to the player among the effects. *)
Definition is_player_call (e : Effect) : bool :=
  match e with
  | PlayerSetVolume _ | PlayerPlay _ | PlayerStop | PlayerDisconnect
  | PlayerSetPause _ => true
  | _ => false
  end.

Definition player_calls (effs : list Effect) : list Effect :=
  List.filter is_player_call effs.

(** What a successful refresh of the menu sends. *)
Definition menu_effects (c : MusicController) : list Effect :=
  match message (menu c), current_track c with
  | Some m, Some t => [MessageEdit m t (qsize (queue c))]
  | _, _ => []
  end.

(** ** Commands that send more than the effects above

    [connect], [play], [seek], [search] and the [queue] display call the
    player, reply with embeds or start a paginator.  Their outputs extend
    the effects; their coroutines are written in the same monad over the
    wider log. *)

Record VoiceChannel := { voice_id : Z; voice_name : string }.

(** [discord.Embed]: what the cog sets.  A field is its name, its value and
    its [inline] flag. *)
Record Embed := {
  embed_title : string;
  embed_description : string;
  embed_timestamp : Z;
  embed_footer : option string;
  embed_fields : list (string * string * bool)
}.

Inductive Output :=
  | Out (e : Effect)
  | PlayerConnect (voice_channel : Z)   (* controller.player.connect *)
  | PlayerSeek (position : Z)           (* controller.player.seek *)
  | ReplyEmbed (embed : Embed)          (* ctx.reply(embed = embed) *)
  | PagesStart (pages : list Embed).    (* Pages().start(ctx) *)

Definition CmdX (A : Type) : Type :=
  MusicController -> MusicController * list Output * Res A.

Definition retX {A} (a : A) : CmdX A := fun c => (c, [], Ret a).

Definition bindX {A B} (m : CmdX A) (k : A -> CmdX B) : CmdX B := fun c =>
  match m c with
  | (c1, o1, Ret a) => let '(c2, o2, r) := k a c1 in (c2, o1 ++ o2, r)
  | (c1, o1, Raise e) => (c1, o1, Raise e)
  | (c1, o1, Suspend) => (c1, o1, Suspend)
  end.

(** A coroutine of the narrower log, run within the wider one. *)
Definition lift {A} (m : Cmd A) : CmdX A := fun c =>
  let '(c1, effs, r) := m c in (c1, List.map Out effs, r).

Definition emitX (o : Output) : CmdX unit := fun c => (c, [o], Ret tt).

Declare Scope cmdx_scope.
Delimit Scope cmdx_scope with cmdx.
Notation "x <- m ;; k" := (bindX m (fun x => k))
  (at level 100, m at next level, right associativity) : cmdx_scope.
Notation "m ;; k" := (bindX m (fun _ => k))
  (at level 100, right associativity) : cmdx_scope.

(** A coroutine of the cog over the wider log. *)
Definition CogX (A : Type) : Type := MusicCog -> MusicCog * list Output * Res A.

(** What [bot.wavelink.get_tracks] returns: [None], a playlist, or a list of
    tracks, which wavelink never returns empty. *)
Inductive SearchResult :=
  | NoTracks
  | TrackPlaylist (name : string) (tracks : list Track)
  | TrackList (first : Track) (others : list Track).

(** [URL_REG = re.compile(r'https?://(?:www\.)?.+')] and its [match]. *)
Module UrlReg.

Local Open Scope string_scope.

(** The rest of [s] after the prefix [p], if [s] starts with [p]. *)
Fixpoint after_prefix (p s : string) : option string :=
  match p, s with
  | EmptyString, _ => Some s
  | String a p', String b s' => if Ascii.eqb a b then after_prefix p' s' else None
  | String _ _, EmptyString => None
  end.

(** [.+] at the start of [s]: one character other than a newline.  The
    optional [www\.] before it matches the empty string when needed. *)
Definition any_char (s : string) : bool :=
  match s with
  | EmptyString => false
  | String a _ => negb (Ascii.eqb a (Ascii.ascii_of_nat 10))
  end.

Definition matches (s : string) : bool :=
  match after_prefix "http" s with
  | None => false
  | Some s1 =>
      let s2 := default s1 (after_prefix "s" s1) in
      match after_prefix "://" s2 with
      | None => false
      | Some s3 => any_char s3
      end
  end.

End UrlReg.

Module MusicBodyX.

Local Open Scope string_scope.
Local Open Scope Z_scope.
Local Open Scope cmdx_scope.

Definition replyX (text : string) : CmdX unit := emitX (Out (Reply text)).

(** [controller.player.<method>(...)] for the calls of this section. *)
Definition player_callX (o : Output) : CmdX unit :=
  p <- lift (read player) ;;
  match p with
  | Some _ => emitX o
  | None => lift (raise AttributeError)
  end.

(** [connect], once the voice channel is known and the controller is
    looked up. *)
Definition connect (ctx : Context) (voice_channel : VoiceChannel) : CmdX unit :=
  lift (modify (set_channel (Some (ctx_channel ctx)))) ;;
  replyX ("Connecting to `" +:+ voice_name voice_channel +:+ "`...") ;;
  player_callX (PlayerConnect (voice_id voice_channel)).

(** [Track(track.id, track.info, requester = ctx.author)] *)
Definition with_requester (u : User) (t : Track) : Track :=
  {| track_id := track_id t; title := title t; uri := uri t; duration := duration t;
     thumb := thumb t; requester := u |}.

(** [for track in tracks.tracks: ... await controller.queue.put(track)] *)
Fixpoint put_all (ctx : Context) (tracks : list Track) : CmdX unit :=
  match tracks with
  | [] => retX tt
  | track :: rest =>
      lift (queue_put (Some (with_requester (author ctx) track))) ;;
      put_all ctx rest
  end.

(** [play], from the test of the search result on. *)
Definition play (ctx : Context) (tracks : SearchResult) : CmdX unit :=
  match tracks with
  | NoTracks => replyX "Could not find any songs."
  | TrackPlaylist name ts =>
      put_all ctx ts ;;
      replyX ("Added the playlist " +:+ name +:+ " with "
              +:+ pretty (Z.of_nat (length ts)) +:+ " songs to the queue.") ;;
      lift (MusicBody.show_menu ctx)
  | TrackList first _ =>
      lift (queue_put (Some (with_requester (author ctx) first))) ;;
      replyX ("Added " +:+ title first +:+ " to the queue.") ;;
      lift (MusicBody.show_menu ctx)
  end.

(** [seek], after the lookup of the controller; the position is given by
    its [seconds] and by its text. *)
Definition seek (ctx : Context) (seconds : Z) (position : string) : CmdX unit :=
  playing <- lift (MusicBody.player_attr is_playing) ;;
  if negb playing then replyX "There's no song to seek."
  else
    player_callX (PlayerSeek (seconds * 1000)) ;;
    replyX ("⏩ **Seek to `" +:+ position +:+ "`.**").

End MusicBodyX.

(** A coroutine over the wider log that leaves an attribute [f] alone. *)
Definition preservesX {A B} (f : MusicController -> B) (m : CmdX A) : Prop :=
  forall c, f (fst (fst (m c))) = f c.

(** ** The displays: [search] and [queue] *)

Module Display.

Local Open Scope string_scope.
Local Open Scope Z_scope.

Definition newline : string := String (Ascii.ascii_of_nat 10) EmptyString.

(** Modelled from the spec: [utilities.facility.get_default_embed] is not
    among the sources; this follows the function of that name in
    [utilities/methods.py], for the arguments the cog passes (an empty
    description): a footer "Requested by ..." when an author is given. *)
Definition get_default_embed (timestamp : Z) (author : option User) (title : string)
    : Embed :=
  {| embed_title := title; embed_description := ""; embed_timestamp := timestamp;
     embed_footer := (fun u => "Requested by " +:+ user_name u) <$> author;
     embed_fields := [] |}.

(** [embed.add_field(name = ..., value = ..., inline = ...)] *)
Definition add_field (name value : string) (inline : bool) (e : Embed) : Embed :=
  {| embed_title := embed_title e; embed_description := embed_description e;
     embed_timestamp := embed_timestamp e; embed_footer := embed_footer e;
     embed_fields := (embed_fields e ++ [(name, value, inline)])%list |}.

Definition set_description (d : string) (e : Embed) : Embed :=
  {| embed_title := embed_title e; embed_description := d;
     embed_timestamp := embed_timestamp e; embed_footer := embed_footer e;
     embed_fields := embed_fields e |}.

Section Rendering.

(** [str(dt.timedelta(milliseconds = ...))], the text of a duration. *)
Variable timedelta_str : Z -> string.

(** [f"[{track.title}]({track.uri}) - {dt.timedelta(milliseconds = track.duration)}"] *)
Definition track_text (t : Track) : string :=
  "[" +:+ title t +:+ "](" +:+ uri t +:+ ") - " +:+ timedelta_str (duration t).

(** *** [search] *)

Definition search_line (index : Z) (track : Track) : string :=
  "**" +:+ pretty (index + 1) +:+ ".** " +:+ track_text track +:+ newline +:+ newline.

(** [for index, track in enumerate(tracks): ...; if index == 9: break] *)
Fixpoint search_loop (index : Z) (tracks : list Track) (description : string) : string :=
  match tracks with
  | [] => description
  | track :: rest =>
      let description := description +:+ search_line index track in
      if index =? 9 then description else search_loop (index + 1) rest description
  end.

(** [search]: [tracks] is what the wavelink client finds for the
    [ytsearch:] query, [None] or a list. *)
Definition search (ctx : Context) (utcnow : Z) (tracks : option (list Track))
    : CogX unit := fun w =>
  match tracks with
  | None => (w, [Out (Reply "Could not find any songs.")], Ret tt)
  | Some tracks =>
      let embed := get_default_embed utcnow (Some (author ctx)) "Top 10 search results" in
      let embed := set_description (search_loop 0 tracks (embed_description embed)) embed in
      (w, [ReplyEmbed embed], Ret tt)
  end.

(** *** [queue] *)

Definition status_text (c : MusicController) : string :=
  "- 🔂: " +:+ (if is_single_loop c then "✅" else "❌") +:+ newline
  +:+ "- 🔁: " +:+ (if is_queue_loop c then "✅" else "❌").

Definition queue_line (index : Z) (track : Track) : string :=
  "`" +:+ pretty (index + 1) +:+ "`. " +:+ track_text track +:+ newline.

(** The state of the loop over [enumerate(upcoming)]. *)
Record Paging := {
  text : string;
  embed : option Embed;
  pages : list Embed;        (* what [page.add_page] has collected *)
  readings : nat             (* the calls of [utcnow()] so far *)
}.

(** The end of a page: the two fields and [page.add_page(embed)]. *)
Definition close_page (c : MusicController) (e : Embed) (st : Paging) : Paging :=
  {| text := ""; embed := None;
     pages := (pages st ++ [add_field "Status:" (status_text c) false
                              (add_field "Up Next:" (text st) false e)])%list;
     readings := readings st |}.

(** One iteration; [None] is the [AttributeError] of [current.title] or
    [track.title] on [None]. *)
Definition queue_step (c : MusicController) (guild_name : string) (utcnow : nat -> Z)
    (ctx : Context) (index : Z) (track : TrackRef) (st : Paging) : option Paging :=
  st1 ← (if index `mod` 5 =? 0 then
            current ← current_track c;
            Some {| text := text st;
                    embed := Some (add_field "Now playing:" (track_text current) false
                                     (get_default_embed (utcnow (readings st))
                                        (Some (author ctx)) ("Queue for " +:+ guild_name)));
                    pages := pages st; readings := S (readings st) |}
          else Some st);
  track ← track;
  let st2 := {| text := text st1 +:+ queue_line index track; embed := embed st1;
                pages := pages st1; readings := readings st1 |} in
  if index `mod` 5 =? 4 then
    e ← embed st2; Some (close_page c e st2)
  else Some st2.

Fixpoint queue_loop (c : MusicController) (guild_name : string) (utcnow : nat -> Z)
    (ctx : Context) (index : Z) (upcoming : list TrackRef) (st : Paging) : option Paging :=
  match upcoming with
  | [] => Some st
  | track :: rest =>
      st' ← queue_step c guild_name utcnow ctx index track st;
      queue_loop c guild_name utcnow ctx (index + 1) rest st'
  end.

(** The pages of a non-empty queue, with the page left open by the loop. *)
Definition queue_pages (c : MusicController) (guild_name : string) (utcnow : nat -> Z)
    (ctx : Context) : option (list Embed) :=
  st ← queue_loop c guild_name utcnow ctx 0 (queue c)
         {| text := ""; embed := None; pages := []; readings := O |};
  match embed st with
  | Some e => Some (pages (close_page c e st))
  | None => Some (pages st)
  end.

(** [queue], after the lookup of the controller. *)
Definition queue_display (ctx : Context) (guild_name : string) (utcnow : nat -> Z)
    : CmdX unit := fun c =>
  match player c with
  | None =>
      if empty (queue c) then (c, [], Raise AttributeError)      (* player.is_playing *)
      else match queue_pages c guild_name utcnow ctx with
           | Some ps => (c, [PagesStart ps], Ret tt)
           | None => (c, [], Raise AttributeError)
           end
  | Some p =>
      if empty (queue c) && negb (is_playing p) then
        (c, [ReplyEmbed (set_description "*There are no songs currently in queue.*"
                           (get_default_embed (utcnow O) None ""))], Ret tt)
      else if empty (queue c) then
        match current_track c with
        | None => (c, [], Raise AttributeError)
        | Some current =>
            (c, [ReplyEmbed
                   (add_field "Status:" (status_text c) false
                      (add_field "Now playing:" (track_text current) false
                         (get_default_embed (utcnow O) (Some (author ctx))
                            ("Queue for " +:+ guild_name))))], Ret tt)
        end
      else match queue_pages c guild_name utcnow ctx with
           | Some ps => (c, [PagesStart ps], Ret tt)
           | None => (c, [], Raise AttributeError)
           end
  end.

End Rendering.

End Display.

Module MusicExt.

Local Open Scope string_scope.
Local Open Scope Z_scope.

(** A coroutine on the controller object at an address. *)
Definition at_address {A} (a : nat) (body : CmdX A) : CogX A := fun w =>
  match heap w !! a with
  | None => (w, [], Raise KeyError)
  | Some c =>
      let '(c', out, r) := body c in
      (set_heap (<[a := c']> (heap w)) w, out, r)
  end.

(** [controller = self.get_controller(ctx)] followed by code on that
    object, over the wider log. *)
Definition with_controllerX {A} (gid : Z) (body : CmdX A) : CogX A := fun w =>
  let '(w1, a) := Music.get_controller gid w in
  at_address a body w1.

Definition queue_clear (ctx : Context) : CogCmd unit :=
  Music.with_controller (guild ctx) (MusicBodyExt.queue_clear ctx).

Definition resume (ctx : Context) : CogCmd unit :=
  Music.with_controller (guild ctx) (MusicBodyExt.resume ctx).

(** [connect]: [voice_channel] is the argument of the command,
    [author_voice] the channel of [ctx.author.voice], if any.  Without
    either the command returns before it looks the controller up. *)
Definition connect (ctx : Context) (voice_channel author_voice : option VoiceChannel)
    : CogX unit := fun w =>
  match voice_channel, author_voice with
  | Some vc, _ | None, Some vc =>
      with_controllerX (guild ctx) (MusicBodyX.connect ctx vc) w
  | None, None =>
      (w, [Out (Reply "No channel to join. Please either specify the channel or join one.")],
       Ret tt)
  end.

(** [play]: [track] is the argument of the command and [get_tracks] what
    the wavelink client finds for a query. *)
Definition play (ctx : Context) (author_voice : option VoiceChannel) (track : string)
    (get_tracks : string -> SearchResult) : CogX unit := fun w =>
  let '(w1, a) := Music.get_controller (guild ctx) w in
  match heap w1 !! a with
  | None => (w1, [], Raise KeyError)
  | Some c =>
      match player c with
      | None => (w1, [], Raise AttributeError)
      | Some p =>
          let '(w2, out1, r1) :=
            if negb (is_connected p) then connect ctx None author_voice w1
            else (w1, [], Ret tt) in
          match r1 with
          | Ret _ =>
              match author_voice with
              | None => (w2, out1, Ret tt)
              | Some _ =>
                  let track := if UrlReg.matches track then track
                               else "ytsearch:" +:+ track in
                  let '(w3, out2, r2) :=
                    at_address a (MusicBodyX.play ctx (get_tracks track)) w2 in
                  (w3, (out1 ++ out2)%list, r2)
              end
          | other => (w2, out1, other)
          end
      end
  end.

Definition seek (ctx : Context) (seconds : Z) (position : string) : CogX unit :=
  with_controllerX (guild ctx) (MusicBodyX.seek ctx seconds position).

(** The [queue] command, the display of the queue. *)
Definition queue_ (ctx : Context) (guild_name : string) (timedelta_str : Z -> string)
    (utcnow : nat -> Z) : CogX unit :=
  with_controllerX (guild ctx) (Display.queue_display timedelta_str ctx guild_name utcnow).

End MusicExt.

(** ** The moves of the cog and what they keep *)

(** A controller as its constructor and the commands leave it: it has its
    player and its volume is within the range of the [volume] command. *)
Definition sound (c : MusicController) : Prop :=
  is_Some (player c) /\ 0 <= volume c <= 200.

(** Every entry of the dictionary leads to an object made for that guild,
    and every object is sound. *)
Definition invariant (w : MusicCog) : Prop :=
  map_Forall (fun gid a => exists c, heap w !! a = Some c /\ guild_id c = gid)
             (controllers w) /\
  Forall sound (heap w).

(** A command run in guild [gid], typed or resolved by [bot.invoke]. *)
Inductive command_move (gid : Z) : MusicCog -> MusicCog -> Prop :=
  | move_invoke ctx w :
      guild ctx = gid -> command_move gid w (fst (fst (Music.invoke ctx w)))
  | move_queue_move ctx s d w :
      guild ctx = gid -> command_move gid w (fst (fst (Music.queue_move ctx s d w)))
  | move_queue_remove ctx i w :
      guild ctx = gid -> command_move gid w (fst (fst (Music.queue_remove ctx i w)))
  | move_volume ctx v w :
      guild ctx = gid -> command_move gid w (fst (fst (Music.volume ctx v w)))
  | move_queue_clear ctx w :
      guild ctx = gid -> command_move gid w (fst (fst (MusicExt.queue_clear ctx w)))
  | move_resume ctx w :
      guild ctx = gid -> command_move gid w (fst (fst (MusicExt.resume ctx w)))
  | move_connect ctx vc av w :
      guild ctx = gid -> command_move gid w (fst (fst (MusicExt.connect ctx vc av w)))
  | move_play ctx av track get_tracks w :
      guild ctx = gid ->
      command_move gid w (fst (fst (MusicExt.play ctx av track get_tracks w)))
  | move_seek ctx secs pos w :
      guild ctx = gid -> command_move gid w (fst (fst (MusicExt.seek ctx secs pos w)))
  | move_queue_display ctx name td now w :
      guild ctx = gid -> command_move gid w (fst (fst (MusicExt.queue_ ctx name td now w))).

(** One move of the cog: a command, the end of a cooldown, a press of a
    button, an event of the node, a step of a loop task, a refresh of a
    player, or the cog being unloaded. *)
Inductive cog_move : MusicCog -> MusicCog -> Prop :=
  | move_command gid w w' : command_move gid w w' -> cog_move w w'
  | move_expire name ctx w : cog_move w (Music.reset_cooldown name ctx w)
  | move_press b a member w : cog_move w (fst (fst (Buttons.press b a member w)))
  | move_event event w : cog_move w (fst (fst (Music.on_event_hook event w)))
  | move_loop i w : cog_move w (fst (EventLoop.step_task i w))
  | move_player a p w : cog_move w (EventLoop.player_update a p w)
  | move_unload w : cog_move w (Music.cog_unload w).

(** The cogs that the moves reach from a new cog. *)
Definition reached (w : MusicCog) : Prop :=
  exists players draws, rtc cog_move (Music.init players draws) w.

(** The attributes that soundness and the registration look at. *)
Definition identity (c : MusicController) : Z * option Player * Z :=
  (guild_id c, player c, volume c).

(** A coroutine that keeps a sound controller sound and of its guild. *)
Definition steady {E A} (body : MusicController -> MusicController * list E * Res A) : Prop :=
  forall c, sound c ->
    sound (fst (fst (body c))) /\ guild_id (fst (fst (body c))) = guild_id c.

(** What a move in guild [gid] leaves alone: the entries of the other
    guilds and the objects they lead to. *)
Definition apart (gid : Z) (w w' : MusicCog) : Prop :=
  forall gid', gid' <> gid ->
    controllers w' !! gid' = controllers w !! gid' /\
    forall a, controllers w !! gid' = Some a -> heap w' !! a = heap w !! a.

(** A member of a second guild. *)
Definition example_context2 : Context :=
  {| author := example_user2; guild := 2; ctx_channel := 20; command := None |}.

(** A cog with the controllers of two guilds: the volume was set in both. *)
Definition example_cog2 : MusicCog :=
  fst (fst (Music.volume example_context2 10
              (fst (fst (Music.volume example_context 30 example_cog))))).

(** What the controller loop and the node hook own: the guild, the player,
    the current track and the finish event. *)
Definition playback (c : MusicController) : Z * option Player * TrackRef * bool :=
  (guild_id c, player c, current_track c, next c).

(** [n] steps of the loop task [i] in a row, with what they do. *)
Fixpoint task_steps (n i : nat) (w : MusicCog) : MusicCog * list Effect :=
  match n with
  | O => (w, [])
  | S n' =>
      let '(w1, effs1) := EventLoop.step_task i w in
      let '(w2, effs2) := task_steps n' i w1 in
      (w2, (effs1 ++ effs2)%list)
  end.

(** A voice channel and what the node finds for a query. *)
Definition example_voice : VoiceChannel := {| voice_id := 5; voice_name := "General" |}.

Definition example_found (query : string) : SearchResult :=
  match example_track "A", example_track "B" with
  | Some a, Some b => TrackList a [b]
  | _, _ => NoTracks
  end.

(** A cog whose player is connected and whose controller is new: [play]
    was used and [connect] was not. *)
Definition example_cog_played : MusicCog :=
  fst (fst (MusicExt.play example_context (Some example_voice) "A" example_found
              example_cog)).

(** ** Listings, for the statements about the displays *)

Module Listing.

Local Open Scope string_scope.
Local Open Scope Z_scope.

(** The lines of a numbered listing, from [index] on. *)
Fixpoint numbered (line : Z -> Track -> string) (index : Z) (tracks : list Track)
    : string :=
  match tracks with
  | [] => ""
  | track :: rest => line index track +:+ numbered line (index + 1) rest
  end.

(** A list cut into runs of five; the fuel is its length. *)
Fixpoint chunks (fuel : nat) (tracks : list Track) : list (list Track) :=
  match fuel, tracks with
  | S fuel', _ :: _ => take 5 tracks :: chunks fuel' (drop 5 tracks)
  | _, _ => []
  end.

(** The page of the [queue] display with the [k]-th run of the queue. *)
Definition queue_page (timedelta_str : Z -> string) (c : MusicController)
    (guild_name : string) (utcnow : nat -> Z) (ctx : Context) (current : Track)
    (k : nat) (chunk : list Track) : Embed :=
  Display.add_field "Status:" (Display.status_text c) false
    (Display.add_field "Up Next:"
       (numbered (Display.queue_line timedelta_str) (5 * Z.of_nat k) chunk) false
       (Display.add_field "Now playing:" (Display.track_text timedelta_str current) false
          (Display.get_default_embed (utcnow k) (Some (author ctx))
             ("Queue for " +:+ guild_name)))).

(** The pages of the runs, the first of them being the [k]-th. *)
Fixpoint queue_pages_from (page : nat -> list Track -> Embed) (k : nat)
    (runs : list (list Track)) : list Embed :=
  match runs with
  | [] => []
  | run :: rest => page k run :: queue_pages_from page (S k) rest
  end.

End Listing.

Definition example_song (name : string) : Track :=
  {| track_id := name; title := name; uri := name; duration := 1000;
     thumb := None; requester := example_user |}.

Definition example_songs : list Track :=
  [example_song "B"; example_song "C"; example_song "D"; example_song "E";
   example_song "F"; example_song "G"].

(** A controller that plays "A" and has six tracks queued. *)
Definition example_playing : MusicController :=
  set_current_track (Some (example_song "A"))
    (set_queue (Some <$> example_songs) example_controller).

(** * Properties *)

(** ** Records and the command monad *)

Lemma set_queue_id c : set_queue (queue c) c = c.
Proof. by destruct c. Qed.

Lemma bind_Ret {A B} (m : Cmd A) (k : A -> Cmd B) c c1 e1 a :
  m c = (c1, e1, Ret a) ->
  bind m k c = (let '(c2, e2, r) := k a c1 in (c2, e1 ++ e2, r)).
Proof. intros H. unfold bind. by rewrite H. Qed.

(** ** The queue surgery of [queue_move] and [queue_remove] *)

Section Drain.

Variable index : Z.

(** Past the index, the loop moves every item to the fake queue. *)
Lemma drain_past q : forall i fake removed c,
  index < i ->
  MusicBody.drain (length q) i index fake removed (set_queue q c)
  = (set_queue [] c, [], Ret (fake ++ q, removed)).
Proof.
  induction q as [|y q IH]; intros i fake removed c Hi; simpl.
  - by rewrite app_nil_r.
  - unfold bind at 1. simpl.
    destruct (Z.eqb_spec i index) as [->|_]; [lia|].
    change (set_queue q (set_queue (y :: q) c)) with (set_queue q c).
    rewrite IH by lia. by rewrite <- app_assoc.
Qed.

(** Up to the index, the loop sets the item at the index aside. *)
Lemma drain_upto q : forall i fake removed c x,
  i <= index ->
  q !! Z.to_nat (index - i) = Some x ->
  MusicBody.drain (length q) i index fake removed (set_queue q c)
  = (set_queue [] c, [], Ret (fake ++ delete (Z.to_nat (index - i)) q, x)).
Proof.
  induction q as [|y q IH]; intros i fake removed c x Hi Hx; [done|].
  simpl. unfold bind at 1. simpl.
  change (set_queue q (set_queue (y :: q) c)) with (set_queue q c).
  destruct (Z.eqb_spec i index) as [->|Hne].
  - rewrite Z.sub_diag in *. simpl in *. injection Hx as ->.
    by rewrite drain_past by lia.
  - replace (Z.to_nat (index - i)) with (S (Z.to_nat (index - (i + 1)))) in * by lia.
    simpl in Hx. rewrite (IH _ _ _ _ x) by (lia || done).
    simpl. by rewrite <- app_assoc.
Qed.

End Drain.

Lemma refill_all fake : forall q c,
  MusicBody.refill (length fake) fake (set_queue q c)
  = (set_queue (q ++ fake) c, [], Ret []).
Proof.
  induction fake as [|y fake IH]; intros q c; simpl.
  - by rewrite app_nil_r.
  - unfold bind, queue_put, modify. simpl.
    change (set_queue (q ++ [y]) (set_queue q c)) with (set_queue (q ++ [y]) c).
    rewrite IH. by rewrite <- app_assoc.
Qed.

(** The two loops together remove the item at a valid index and keep the
    others in order; [k] is the rest of the command. *)
Lemma drain_refill {B} (k : TrackRef -> Cmd B) c (index : Z) x :
  queue c !! Z.to_nat index = Some x ->
  0 <= index ->
  (r <- MusicBody.drain (Z.to_nat (qsize (queue c))) 0 index [] None ;;
   let '(fake_queue, removed_track) := r in
   _ <- MusicBody.refill (Z.to_nat (qsize (queue c) - 1)) fake_queue ;;
   k removed_track) c
  = k x (set_queue (delete (Z.to_nat index) (queue c)) c).
Proof.
  intros Hx Hi.
  assert (Hlen : (Z.to_nat index < length (queue c))%nat) by (by eapply lookup_lt_Some).
  unfold qsize. rewrite Nat2Z.id.
  pose proof (drain_upto index (queue c) 0 [] None c x) as Hdrain.
  rewrite Z.sub_0_r, set_queue_id in Hdrain.
  erewrite bind_Ret by (apply Hdrain; [lia|done]).
  replace (Z.to_nat (Z.of_nat (length (queue c)) - 1))
    with (length (delete (Z.to_nat index) (queue c))).
  2:{ rewrite length_delete by eauto. lia. }
  erewrite bind_Ret by apply refill_all.
  simpl. by destruct (k x _) as [[c2 e2] r].
Qed.

Lemma valid_index_lookup (q : list TrackRef) (index : Z) :
  1 <= index <= qsize q -> is_Some (q !! Z.to_nat (index - 1)).
Proof. unfold qsize. intros H. apply lookup_lt_is_Some. lia. Qed.

Lemma index_check_valid (index max_size : Z) :
  1 <= index <= max_size ->
  (index - 1 <? 0) || (index - 1 >? max_size - 1) = false.
Proof. intros H. apply orb_false_iff. split; lia. Qed.

Lemma index_check_invalid (index max_size : Z) :
  ~ (1 <= index <= max_size) ->
  (index - 1 <? 0) || (index - 1 >? max_size - 1) = true.
Proof. intros H. apply orb_true_iff. lia. Qed.

(** C3. [queue_move] with both 1-based indices within the queue takes the
    track at the source index out and inserts it at the destination index
    of the shortened queue; the other tracks keep their order. *)
Theorem queue_move_valid (ctx : Context) (c : MusicController) (s d : Z) :
  1 <= s <= qsize (queue c) ->
  1 <= d <= qsize (queue c) ->
  exists x c',
    queue c !! Z.to_nat (s - 1) = Some x /\
    MusicBody.queue_move ctx s d c
      = (c', fst (report (moved_text s d) x), snd (report (moved_text s d) x)) /\
    c' = set_queue (take (Z.to_nat (d - 1)) (delete (Z.to_nat (s - 1)) (queue c))
                    ++ x :: drop (Z.to_nat (d - 1)) (delete (Z.to_nat (s - 1)) (queue c))) c /\
    queue c' !! Z.to_nat (d - 1) = Some x /\
    delete (Z.to_nat (d - 1)) (queue c') = delete (Z.to_nat (s - 1)) (queue c).
Proof.
  intros Hs Hd.
  destruct (valid_index_lookup _ _ Hs) as [x Hx].
  assert (Hlen : (Z.to_nat (s - 1) < length (queue c))%nat) by (by eapply lookup_lt_Some).
  set (rest := delete (Z.to_nat (s - 1)) (queue c)).
  assert (Hrest : length rest = (length (queue c) - 1)%nat)
    by (unfold rest; rewrite length_delete by eauto; lia).
  assert (Hd' : (Z.to_nat (d - 1) <= length rest)%nat) by (unfold qsize in Hd; lia).
  exists x, (set_queue (take (Z.to_nat (d - 1)) rest ++ x :: drop (Z.to_nat (d - 1)) rest) c).
  split; [done|]. split; [|split; [done|split]].
  - unfold MusicBody.queue_move.
    erewrite bind_Ret by reflexivity.
    rewrite <- !orb_assoc, (orb_assoc (_ <? _)), index_check_valid by done.
    rewrite index_check_valid by done. cbn [orb].
    rewrite drain_refill with (x := x) by (done || lia).
    fold rest. unfold bind, modify. simpl.
    assert (Hins : deque_insert (d - 1) x rest
                   = take (Z.to_nat (d - 1)) rest ++ x :: drop (Z.to_nat (d - 1)) rest).
    { unfold deque_insert, qsize.
      destruct (Z.ltb_spec (d - 1) 0); [lia|].
      by rewrite Z.min_l by lia. }
    change (queue (set_queue rest c)) with rest. rewrite Hins.
    replace (s - 1 + 1) with s by lia. replace (d - 1 + 1) with d by lia.
    by destruct x.
  - simpl. rewrite lookup_app_r by (rewrite length_take; lia).
    rewrite length_take. by replace (_ - _)%nat with 0%nat by lia.
  - simpl.
    replace (Z.to_nat (d - 1)) with (length (take (Z.to_nat (d - 1)) rest)) at 1
      by (rewrite length_take; lia).
    by rewrite delete_middle, take_drop.
Qed.

Lemma queue_move_valid_witness :
  exists c',
    fst (fst (MusicBody.queue_move example_context 3 1
                (set_queue example_queue (MusicController_init example_player 1)))) = c' /\
    queue c' = [example_track "C"; example_track "A"; example_track "B";
                example_track "D"; example_track "E"].
Proof.
  destruct (queue_move_valid example_context
              (set_queue example_queue (MusicController_init example_player 1)) 3 1)
    as (x & c' & Hx & Hrun & Hc' & _).
  - index_bounds.
  - index_bounds.
  - exists c'. rewrite Hrun. split; [reflexivity|].
    vm_compute in Hx. injection Hx as <-. rewrite Hc'. reflexivity.
Defined.

(** C5. [queue_remove] with a valid 1-based index takes exactly the track at
    that index out of the queue, keeps the others in order, and names the
    removed track in its reply. *)
Theorem queue_remove_valid (ctx : Context) (c : MusicController) (index : Z) :
  1 <= index <= qsize (queue c) ->
  exists x,
    queue c !! Z.to_nat (index - 1) = Some x /\
    MusicBody.queue_remove ctx index c
      = (set_queue (take (Z.to_nat (index - 1)) (queue c)
                    ++ drop (S (Z.to_nat (index - 1))) (queue c)) c,
         fst (report removed_text x), snd (report removed_text x)) /\
    qsize (queue (fst (fst (MusicBody.queue_remove ctx index c)))) = qsize (queue c) - 1.
Proof.
  intros Hi.
  destruct (valid_index_lookup _ _ Hi) as [x Hx].
  assert (Hrun : MusicBody.queue_remove ctx index c
      = (set_queue (take (Z.to_nat (index - 1)) (queue c)
                    ++ drop (S (Z.to_nat (index - 1))) (queue c)) c,
         fst (report removed_text x), snd (report removed_text x))).
  { unfold MusicBody.queue_remove.
    erewrite bind_Ret by reflexivity.
    rewrite index_check_valid by done.
    rewrite drain_refill with (x := x) by (done || lia).
    rewrite delete_take_drop. by destruct x. }
  exists x. split; [done|]. split; [done|].
  rewrite Hrun. simpl. rewrite <- delete_take_drop. unfold qsize.
  rewrite length_delete by eauto.
  apply lookup_lt_Some in Hx. lia.
Qed.

Lemma queue_remove_valid_witness :
  exists c',
    MusicBody.queue_remove example_context 2
      (set_queue [example_track "A"; example_track "B"; example_track "C"]
         (MusicController_init example_player 1))
    = (c', [Reply (removed_text "B")], Ret tt) /\
    queue c' = [example_track "A"; example_track "C"].
Proof.
  destruct (queue_remove_valid example_context
              (set_queue [example_track "A"; example_track "B"; example_track "C"]
                 (MusicController_init example_player 1)) 2)
    as (x & Hx & Hrun & _).
  - index_bounds.
  - vm_compute in Hx. injection Hx as <-.
    eexists. split; [exact Hrun | reflexivity].
Defined.

(** C4. With an index outside [1, qsize], [queue_remove] and [queue_move]
    only answer "Index out of range.": the controller, and with it the
    queue, is exactly as before, and no track is taken out. *)
Theorem index_out_of_range (ctx : Context) (c : MusicController) (index s d : Z) :
  ~ (1 <= index <= qsize (queue c)) ->
  ~ (1 <= s <= qsize (queue c)) \/ ~ (1 <= d <= qsize (queue c)) ->
  MusicBody.queue_remove ctx index c = (c, [Reply "Index out of range."], Ret tt) /\
  MusicBody.queue_move ctx s d c = (c, [Reply "Index out of range."], Ret tt).
Proof.
  intros Hi Hsd. split.
  - unfold MusicBody.queue_remove.
    erewrite bind_Ret by reflexivity.
    by rewrite index_check_invalid.
  - unfold MusicBody.queue_move.
    erewrite bind_Ret by reflexivity.
    rewrite <- !orb_assoc, (orb_assoc (_ <? _)).
    destruct Hsd as [Hs|Hd].
    + by rewrite (index_check_invalid s).
    + rewrite (index_check_invalid d) by done. by rewrite orb_true_r.
Qed.

Lemma index_out_of_range_witness :
  let c := set_queue example_queue (MusicController_init example_player 1) in
  MusicBody.queue_remove example_context 6 c = (c, [Reply "Index out of range."], Ret tt) /\
  MusicBody.queue_move example_context 0 2 c = (c, [Reply "Index out of range."], Ret tt).
Proof.
  apply (index_out_of_range example_context
           (set_queue example_queue (MusicController_init example_player 1)) 6 0 2).
  - index_bounds.
  - left. index_bounds.
Defined.

(** ** The controller loop *)

Section Iteration.

Import ControllerLoop.



End Iteration.


(** ** The loop flags *)

Lemma repeat_flags ctx c :
  is_queue_loop (fst (fst (MusicBody.repeat ctx c))) = is_queue_loop c /\
  is_single_loop (fst (fst (MusicBody.repeat ctx c)))
  = negb (is_single_loop c) && MusicBody.truthy (player c).
Proof.
  destruct c as [gid ch nx q v sl ql [t|] [p|] [mc [m|] rn]];
    destruct sl, q as [|[u|] q]; split; reflexivity.
Qed.

Lemma queue_loop_flags ctx c :
  is_queue_loop (fst (fst (MusicBody.queue_loop ctx c))) = negb (is_queue_loop c) /\
  is_single_loop (fst (fst (MusicBody.queue_loop ctx c)))
  = is_single_loop c && is_queue_loop c.
Proof.
  destruct c as [gid ch nx q v sl ql [t|] [p|] [mc [m|] rn]];
    destruct sl, ql, q as [|[u|] q]; split; reflexivity.
Qed.

(** C2, as the code has it.  A queue-loop toggle never leaves both flags
    set: enabling queue loop while single loop is active disables single
    loop.  The single-loop toggle does not touch the queue-loop flag. *)
Theorem queue_loop_disables_single_loop (ctx : Context) (c : MusicController) :
  let c' := fst (fst (MusicBody.queue_loop ctx c)) in
  is_queue_loop c' = negb (is_queue_loop c) /\
  is_single_loop c' && is_queue_loop c' = false /\
  (is_single_loop c = true -> is_queue_loop c = false ->
     is_queue_loop c' = true /\ is_single_loop c' = false) /\
  is_queue_loop (fst (fst (MusicBody.repeat ctx c))) = is_queue_loop c.
Proof.
  destruct (queue_loop_flags ctx c) as [Hq Hs]. cbv zeta. rewrite Hq, Hs.
  split; [done|]. split; [|split].
  - by destruct (is_single_loop c), (is_queue_loop c).
  - by intros -> ->.
  - apply repeat_flags.
Qed.

Lemma queue_loop_disables_single_loop_witness :
  let c := set_is_single_loop true (MusicController_init example_player 1) in
  let c' := fst (fst (MusicBody.queue_loop example_context c)) in
  is_queue_loop c' = true /\ is_single_loop c' = false.
Proof.
  apply (queue_loop_disables_single_loop example_context
           (set_is_single_loop true (MusicController_init example_player 1)));
    reflexivity.
Defined.

(** C2, as the spec has it, fails: the queue-loop toggle followed by the
    single-loop toggle sets both flags. *)
Lemma both_loops_reachable :
  ~ (forall c, toggled c -> is_single_loop c && is_queue_loop c = false).
Proof.
  intros H.
  specialize (H (fst (fst (MusicBody.repeat example_context
                   (fst (fst (MusicBody.queue_loop example_context
                      (MusicController_init example_player 1)))))))).
  discriminate H. repeat constructor.
Qed.

(** ** The registry of controllers *)

Section Registry.

Import ControllerLoop.

Lemma wf_init players draws : wf (Music.init players draws).
Proof. split; [apply map_Forall_empty | constructor]. Qed.

(** What [get_controller] does when the guild has no controller. *)
Lemma get_controller_absent gid w :
  controllers w !! gid = None ->
  Music.get_controller gid w
  = (set_tasks (tasks w ++ [(length (heap w), Running AtStart)])
       (set_heap (heap w ++ [MusicController_init (Music.get_player w gid) gid])
          (set_controllers (<[gid := length (heap w)]> (controllers w)) w)),
     length (heap w)).
Proof. intros H. unfold Music.get_controller. by rewrite H. Qed.

Lemma get_controller_present gid w a :
  controllers w !! gid = Some a -> Music.get_controller gid w = (w, a).
Proof. intros H. unfold Music.get_controller. by rewrite H. Qed.

(** After [get_controller] the guild has the returned controller, which
    is an object of the heap; the objects that were there are untouched. *)
Lemma get_controller_spec gid w :
  wf w ->
  exists c,
    let w1 := fst (Music.get_controller gid w) in
    let a := snd (Music.get_controller gid w) in
    controllers w1 !! gid = Some a /\
    heap w1 !! a = Some c /\
    is_Some (player c) /\
    wf w1 /\
    (forall b, (b < length (heap w))%nat -> heap w1 !! b = heap w !! b) /\
    (length (heap w) <= length (heap w1))%nat.
Proof.
  intros [Hmap Hpl].
  destruct (controllers w !! gid) as [a|] eqn:Hgid.
  - rewrite (get_controller_present _ _ _ Hgid). simpl.
    pose proof (Hmap _ _ Hgid) as Ha. simpl in Ha.
    destruct (lookup_lt_is_Some_2 _ _ Ha) as [c Hc].
    exists c. repeat split; try done.
    eapply Forall_lookup_1 in Hpl; eauto.
  - rewrite (get_controller_absent _ _ Hgid). simpl.
    exists (MusicController_init (Music.get_player w gid) gid).
    repeat split.
    + by rewrite lookup_insert_eq.
    + by rewrite lookup_app_r, Nat.sub_diag.
    + by eexists.
    + simpl. apply map_Forall_insert_2.
      * rewrite length_app. simpl. lia.
      * intros g b Hb. specialize (Hmap g b Hb). simpl in *.
        rewrite length_app. simpl. lia.
    + simpl. apply Forall_app. split; [done|].
      constructor; [by eexists | constructor].
    + intros b Hb. by rewrite lookup_app_l.
    + rewrite length_app. lia.
Qed.

(** C10. [get_controller] is idempotent.  A guild that has a controller
    gets that very object back and the cog is left as it was: no object
    and no loop task is created.  Only a guild without an entry gets a
    new object, at a fresh address, with one new loop task; looking the
    guild up again returns that same object and creates nothing. *)
Theorem get_controller_idempotent (gid : Z) (w : MusicCog) :
  (forall a, controllers w !! gid = Some a ->
     Music.get_controller gid w = (w, a)) /\
  (controllers w !! gid = None ->
     let w1 := fst (Music.get_controller gid w) in
     let a1 := snd (Music.get_controller gid w) in
     a1 = length (heap w) /\
     heap w1 = heap w ++ [MusicController_init (Music.get_player w gid) gid] /\
     tasks w1 = tasks w ++ [(a1, Running AtStart)] /\
     controllers w1 = <[gid := a1]> (controllers w)) /\
  (let w1 := fst (Music.get_controller gid w) in
   let a1 := snd (Music.get_controller gid w) in
   Music.get_controller gid w1 = (w1, a1)).
Proof.
  split; [|split].
  - intros a Ha. by apply get_controller_present.
  - intros Hgid. by rewrite (get_controller_absent _ _ Hgid).
  - destruct (controllers w !! gid) as [a|] eqn:Hgid.
    + rewrite (get_controller_present _ _ _ Hgid). simpl.
      by apply get_controller_present.
    + rewrite (get_controller_absent _ _ Hgid). simpl.
      apply get_controller_present. simpl. by rewrite lookup_insert_eq.
Qed.

End Registry.

Lemma get_controller_idempotent_witness :
  let w1 := fst (Music.get_controller 1 example_cog) in
  length (heap w1) = 1%nat /\ length (tasks w1) = 1%nat /\
  Music.get_controller 1 w1 = (w1, 0%nat) /\
  length (heap (fst (Music.get_controller 1 w1))) = 1%nat /\
  length (tasks (fst (Music.get_controller 1 w1))) = 1%nat.
Proof.
  destruct (get_controller_idempotent 1 example_cog) as (_ & Hnew & Hagain).
  destruct Hnew as (Ha & Hheap & Htasks & _); [reflexivity|].
  cbv zeta in *. rewrite Hagain, Hheap, Htasks, Ha. simpl. done.
Defined.

Lemma clear_queue_all q : forall c,
  MusicBody.clear_queue (length q) (set_queue q c) = (set_queue [] c, [], Ret tt).
Proof.
  induction q as [|x q IH]; intros c; [done|].
  simpl. unfold bind at 1. unfold read at 1. simpl.
  unfold bind at 1. unfold queue_get. simpl.
  change (set_queue q (set_queue (x :: q) c)) with (set_queue q c).
  by rewrite IH.
Qed.

Lemma disconnect_body ctx c p :
  player c = Some p ->
  MusicBody.disconnect ctx c = (set_queue [] c, [PlayerStop; PlayerDisconnect], Ret tt).
Proof.
  intros Hp. unfold MusicBody.disconnect, MusicBody.player_call.
  unfold bind at 1. unfold bind at 1. unfold read at 1. rewrite Hp.
  unfold emit at 1. unfold bind at 1. unfold read at 1.
  pose proof (clear_queue_all (queue c) c) as Hclear.
  rewrite set_queue_id in Hclear. unfold bind at 1. rewrite Hclear.
  unfold bind, read, emit. simpl. by rewrite Hp.
Qed.

(** A command runs its body on the controller of the guild. *)
Lemma with_controller_run {A} gid (body : Cmd A) w :
  wf w ->
  exists c,
    let w1 := fst (Music.get_controller gid w) in
    let a := snd (Music.get_controller gid w) in
    heap w1 !! a = Some c /\
    is_Some (player c) /\
    controllers w1 !! gid = Some a /\
    Music.with_controller gid body w
    = (set_heap (<[a := fst (fst (body c))]> (heap w1)) w1,
       snd (fst (body c)), snd (body c)).
Proof.
  intros Hwf.
  destruct (get_controller_spec gid w Hwf) as (c & Hgid & Hc & Hp & _).
  exists c. cbv zeta in *. repeat split; try done.
  unfold Music.with_controller.
  destruct (Music.get_controller gid w) as [w1 a]. simpl in *.
  rewrite Hc. by destruct (body c) as [[c' effs] r].
Qed.

(** C9. [disconnect] takes the guild out of the dictionary, and the next
    [get_controller] for the guild constructs a new controller object: its
    volume is 50 and its queue is empty. *)
Theorem disconnect_then_fresh_controller (ctx : Context) (w : MusicCog) :
  wf w ->
  exists w1 effs c,
    Music.disconnect ctx w = (w1, effs, Ret tt) /\
    controllers w1 !! guild ctx = None /\
    let w2 := fst (Music.get_controller (guild ctx) w1) in
    let a := snd (Music.get_controller (guild ctx) w1) in
    a = length (heap w1) /\
    controllers w2 !! guild ctx = Some a /\
    heap w2 !! a = Some c /\
    c = MusicController_init (Music.get_player w1 (guild ctx)) (guild ctx) /\
    volume c = 50 /\
    queue c = [].
Proof.
  intros Hwf.
  destruct (with_controller_run (guild ctx) (MusicBody.disconnect ctx) w Hwf)
    as (c0 & Hc0 & [p Hp] & Hgid & Hrun).
  cbv zeta in *. unfold Music.disconnect. rewrite Hrun.
  rewrite (disconnect_body ctx c0 p Hp). simpl. rewrite Hgid.
  eexists _, _, _. split; [reflexivity|].
  simpl. split; [by rewrite lookup_delete_eq|].
  rewrite get_controller_absent by (simpl; by rewrite lookup_delete_eq).
  simpl. repeat split.
  - by rewrite lookup_insert_eq.
  - rewrite lookup_app_r by done. by rewrite Nat.sub_diag.
Qed.

Lemma disconnect_then_fresh_controller_witness :
  let w := fst (fst (Music.volume example_context 120 example_cog)) in
  (volume <$> heap w !! 0%nat) = Some 120 /\
  exists w1 c,
    fst (fst (Music.disconnect example_context w)) = w1 /\
    controllers w1 !! 1 = None /\
    heap (fst (Music.get_controller 1 w1)) !! snd (Music.get_controller 1 w1) = Some c /\
    volume c = 50 /\ queue c = [].
Proof.
  split; [reflexivity|].
  destruct (disconnect_then_fresh_controller example_context
              (fst (fst (Music.volume example_context 120 example_cog))))
    as (w1 & effs & c & Hrun & Hgone & Ha & _ & Hc & _ & Hvol & Hq).
  - split; apply (bool_decide_unpack _); vm_compute; exact I.
  - exists w1, c. rewrite Hrun. by repeat split.
Defined.

(** ** What the commands leave alone *)

Lemma show_menu_spec ctx c :
  returns (MusicBody.show_menu ctx c) /\
  set_menu (menu c) (fst (fst (MusicBody.show_menu ctx c))) = c.
Proof. case_controller c; by split. Qed.

Lemma pause_spec ctx c :
  returns (MusicBody.pause ctx c) /\
  set_menu (menu c) (fst (fst (MusicBody.pause ctx c))) = c.
Proof. case_controller c; by split. Qed.

Lemma skip_spec ctx c :
  returns (MusicBody.skip ctx c) /\
  set_menu (menu c) (fst (fst (MusicBody.skip ctx c))) = c.
Proof. case_controller c; by split. Qed.

Lemma repeat_returns ctx c : returns (MusicBody.repeat ctx c).
Proof. by case_controller c. Qed.

Lemma queue_loop_returns ctx c : returns (MusicBody.queue_loop ctx c).
Proof. by case_controller c. Qed.

Lemma queue_shuffle_returns ctx draws c : returns (MusicBody.queue_shuffle ctx draws c).
Proof.
  unfold MusicBody.queue_shuffle. unfold bind at 1. unfold read at 1.
  destruct (empty (queue c)); [done|].
  unfold bind at 1. unfold modify at 1. unfold bind at 1. unfold reply, emit at 1.
  match goal with |- context [MusicBody.show_menu ctx ?c'] =>
    destruct (show_menu_spec ctx c') as [H _];
    destruct (MusicBody.show_menu ctx c') as [[c2 e2] r] end.
  by simpl in *.
Qed.

(** [stop] in closed form: it touches the flags and the queue, and nothing
    of the menu. *)
Lemma stop_body ctx c :
  MusicBody.stop ctx c
  = match player c with
    | None => (c, [], Raise AttributeError)
    | Some p =>
        if is_playing p
        then (set_queue [] (set_is_single_loop false (set_is_queue_loop false c)),
              [PlayerStop; Reply "Stopped the player."], Ret tt)
        else (c, [Reply "There's nothing to stop."], Ret tt)
    end.
Proof.
  unfold MusicBody.stop, MusicBody.player_attr, MusicBody.player_call.
  unfold bind at 1. unfold bind at 1. unfold read at 1.
  destruct (player c) as [p|] eqn:Hp; [|done].
  unfold ret at 1. destruct (is_playing p); [|done]. cbn [negb].
  unfold bind at 1. unfold bind at 1. unfold read at 1. rewrite Hp.
  unfold emit at 1. unfold bind at 1. unfold modify at 1.
  unfold bind at 1. unfold modify at 1. unfold bind at 1. unfold read at 1.
  set (c1 := set_is_single_loop false (set_is_queue_loop false c)).
  pose proof (clear_queue_all (queue c1) c1) as Hclear.
  rewrite set_queue_id in Hclear. unfold bind at 1. rewrite Hclear.
  reflexivity.
Qed.

Lemma stop_spec ctx c :
  returns (MusicBody.stop ctx c) /\ menu (fst (fst (MusicBody.stop ctx c))) = menu c.
Proof.
  rewrite stop_body. destruct (player c) as [p|]; [|by split].
  by destruct (is_playing p).
Qed.

Lemma disconnect_spec ctx c :
  returns (MusicBody.disconnect ctx c) /\
  menu (fst (fst (MusicBody.disconnect ctx c))) = menu c.
Proof.
  destruct (player c) as [p|] eqn:Hp.
  - by rewrite (disconnect_body ctx c p Hp).
  - unfold MusicBody.disconnect, MusicBody.player_call, bind, read. by rewrite Hp.
Qed.

Lemma with_controller_returns {A} gid (body : Cmd A) w :
  (forall c, returns (body c)) -> returns (Music.with_controller gid body w).
Proof.
  intros Hbody. unfold Music.with_controller.
  destruct (Music.get_controller gid w) as [w1 a].
  destruct (heap w1 !! a) as [c|]; [|done].
  specialize (Hbody c). by destruct (body c) as [[c' effs] r].
Qed.


Lemma disconnect_returns ctx w : returns (Music.disconnect ctx w).
Proof.
  unfold Music.disconnect.
  pose proof (with_controller_returns (guild ctx) (MusicBody.disconnect ctx) w
                (fun c => proj1 (disconnect_spec ctx c))) as H.
  destruct (Music.with_controller _ _ w) as [[w1 effs] [u|e|]]; try done.
  by destruct (controllers w1 !! guild ctx).
Qed.

Lemma queue_shuffle_cog_returns ctx w : returns (Music.queue_shuffle ctx w).
Proof.
  unfold Music.queue_shuffle.
  pose proof (with_controller_returns (guild ctx)
                (MusicBody.queue_shuffle ctx (List.hd [] (entropy w))) w
                (queue_shuffle_returns ctx _)) as H.
  by destruct (Music.with_controller _ _ w) as [[w1 effs] r].
Qed.

(** The commands of the table, one by one. *)
Lemma get_command_cases name cmd :
  Music.get_command name = Some cmd ->
  Music.qualified_name cmd = name /\
  (Music.callback cmd = Music.disconnect \/ Music.callback cmd = Music.pause \/
   Music.callback cmd = Music.repeat \/ Music.callback cmd = Music.queue_loop \/
   Music.callback cmd = Music.queue_shuffle \/ Music.callback cmd = Music.skip \/
   Music.callback cmd = Music.stop).
Proof.
  intros H. apply List.find_some in H as [Hin Hname].
  apply String.eqb_eq in Hname. split; [done|].
  simpl in Hin. repeat (destruct Hin as [<-|Hin]; [simpl; tauto|]). done.
Qed.

Lemma callback_returns name cmd ctx w :
  Music.get_command name = Some cmd -> returns (Music.callback cmd ctx w).
Proof.
  intros H. apply get_command_cases in H as [_ H].
  destruct H as [->|[->|[->|[->|[->|[->| ->]]]]]].
  - apply disconnect_returns.
  - apply with_controller_returns. intros c. apply pause_spec.
  - apply with_controller_returns. intros c. apply repeat_returns.
  - apply with_controller_returns. intros c. apply queue_loop_returns.
  - apply queue_shuffle_cog_returns.
  - apply with_controller_returns. intros c. apply skip_spec.
  - apply with_controller_returns. intros c. apply stop_spec.
Qed.

(** [bot.invoke] always comes back: it absorbs what the command raises. *)
Lemma invoke_returns ctx w : snd (Music.invoke ctx w) = Ret tt.
Proof.
  unfold Music.invoke.
  destruct (command ctx) as [name|]; [|done].
  destruct (Music.get_command name) as [cmd|] eqn:Hcmd; [|done].
  destruct (Music.on_cooldown name ctx w); [done|].
  pose proof (callback_returns name cmd ctx (Music.update_rate_limit name ctx w) Hcmd) as H.
  by destruct (Music.callback cmd ctx _) as [[w1 effs] [[]|e|]].
Qed.

(** ** The node hook *)


Section Hook.

Import ControllerLoop.


End Hook.


(** ** The buttons *)

Lemma button_command_resolves b :
  exists cmd, Music.get_command (Buttons.button_command b) = Some cmd.
Proof. destruct b; by eexists. Qed.

(** A button runs [bot.invoke] on the context of a text command typed by
    the member who pressed it, and then resets the cooldown. *)
Lemma invoke_as_spec name a member w c ctx0 cmd :
  heap w !! a = Some c ->
  menu_ctx (menu c) = Some ctx0 ->
  Music.get_command name = Some cmd ->
  let ctx := Music.text_context member (guild ctx0) (ctx_channel ctx0) name in
  Buttons.invoke_as name a member w
  = (Music.reset_cooldown name ctx (fst (fst (Music.invoke ctx w))),
     snd (fst (Music.invoke ctx w)), Ret tt).
Proof.
  intros Ha Hctx Hcmd. cbv zeta.
  unfold Buttons.invoke_as, InteractiveMenu.update_context.
  rewrite Ha, Hctx, Hcmd.
  destruct (get_command_cases _ _ Hcmd) as [-> _].
  unfold Buttons.set_command, Music.text_context. simpl.
  match goal with |- context [Music.invoke ?ctx w] =>
    pose proof (invoke_returns ctx w) as Hr;
    destruct (Music.invoke ctx w) as [[w1 effs] r] end.
  simpl in *. by rewrite Hr.
Qed.






(** C8, as the code has it.  A button copies the menu's context with the
    member who pressed it as author, resolves its command by name and runs
    it through [bot.invoke], the path a text command of that member takes,
    and then resets the command's cooldown.  The cooldown is the guild's:
    after a press the command is free for every user of the guild. *)
Theorem button_invokes_as_member (b : Buttons.Button) (a : nat) (member : User)
    (w : MusicCog) (c : MusicController) (ctx0 : Context) :
  heap w !! a = Some c ->
  menu_ctx (menu c) = Some ctx0 ->
  let name := Buttons.button_command b in
  let ctx := Music.text_context member (guild ctx0) (ctx_channel ctx0) name in
  InteractiveMenu.update_context (menu c) member
    = Some {| author := member; guild := guild ctx0;
              ctx_channel := ctx_channel ctx0; command := command ctx0 |} /\
  is_Some (Music.get_command name) /\
  Buttons.invoke_as name a member w
    = (Music.reset_cooldown name ctx (fst (fst (Music.invoke ctx w))),
       snd (fst (Music.invoke ctx w)), Ret tt) /\
  exists w' effs' r,
    Buttons.handler b a member w = (w', snd (fst (Music.invoke ctx w)) ++ effs', r) /\
    (b <> Buttons.StopButton -> b <> Buttons.DisconnectButton ->
       Buttons.handler b a member w = Buttons.invoke_as name a member w) /\
    cooldowns w' = cooldowns (fst (fst (Music.invoke ctx w))) ∖ {[ (name, guild ctx0) ]} /\
    forall user ch,
      Music.on_cooldown name (Music.text_context user (guild ctx0) ch name) w' = false.
Proof.
  intros Ha Hctx name ctx.
  destruct (button_command_resolves b) as [cmd Hcmd]. fold name in Hcmd.
  pose proof (invoke_as_spec name a member w c ctx0 cmd Ha Hctx Hcmd) as Hrun.
  cbv zeta in Hrun. fold ctx in Hrun.
  split; [by unfold InteractiveMenu.update_context; rewrite Hctx|].
  split; [by eexists|]. split; [done|].
  set (w1 := Music.reset_cooldown name ctx (fst (fst (Music.invoke ctx w)))) in *.
  assert (Hfree : forall w', cooldowns w' = cooldowns w1 ->
            forall user ch,
              Music.on_cooldown name (Music.text_context user (guild ctx0) ch name) w' = false).
  { intros w' Hw' user ch. unfold Music.on_cooldown, Music.bucket_key. simpl.
    apply bool_decide_eq_false. rewrite Hw'. unfold w1. simpl.
    unfold Music.bucket_key. simpl.
    rewrite elem_of_difference, elem_of_singleton. tauto. }
  assert (Hteardown : exists w2 effs2 r2,
            Buttons.teardown a w1 = (w2, effs2, r2) /\ cooldowns w2 = cooldowns w1).
  { unfold Buttons.teardown. destruct (heap w1 !! a) as [c1|]; [|by eexists _, _, _].
    destruct (message (menu c1)); by eexists _, _, _. }
  destruct Hteardown as (w2 & effs2 & r2 & Htd & Hcd).
  destruct b; try (exists w1, [], (Ret tt); rewrite app_nil_r;
    split; [exact Hrun|]; split; [done|]; split; [done|]; by apply Hfree).
  - exists w2, effs2, r2. unfold Buttons.handler, Buttons.on_stop_button.
    change "stop"%string with name. rewrite Hrun, Htd.
    split; [done|]. split; [done|]. split; [done|]. by apply Hfree.
  - exists w2, effs2, r2. unfold Buttons.handler, Buttons.on_disconnect_button.
    change "disconnect"%string with name. rewrite Hrun, Htd.
    split; [done|]. split; [done|]. split; [done|]. by apply Hfree.
Qed.

Lemma button_invokes_as_member_witness :
  author <$> InteractiveMenu.update_context
               {| menu_ctx := Some example_context;
                  message := Some {| message_channel := 10 |};
                  running := true |} example_user2
    = Some example_user2 /\
  forall user,
    Music.on_cooldown "pause" (Music.text_context user 1 10 "pause")
      (fst (fst (Buttons.handler Buttons.PauseButton 0 example_user2 example_cog_menu)))
    = false.
Proof.
  destruct (button_invokes_as_member Buttons.PauseButton 0 example_user2 example_cog_menu
              example_menu_controller example_context)
    as (Hctx & _ & _ & w' & effs' & r & Hrun & _ & _ & Hfree).
  - reflexivity.
  - reflexivity.
  - split; [reflexivity|]. intros user. rewrite Hrun. apply Hfree.
Defined.

(** C8, as the spec has it, fails: the rate limit is not the pressing
    user's own.  One user types [pause]; the press of a second user right
    after is refused as on cooldown, though that user has not used the
    command, and it lifts the first user's cooldown. *)
Lemma presses_share_the_guild_cooldown :
  let typed := Music.text_context example_user 1 10 "pause" in
  let w1 := fst (fst (Music.invoke typed example_cog_menu)) in
  let pressed := Buttons.press Buttons.PauseButton 0 example_user2 w1 in
  example_user <> example_user2 /\
  Music.on_cooldown "pause" typed example_cog_menu = false /\
  Music.on_cooldown "pause" typed w1 = true /\
  snd (fst pressed) = [CommandError CommandOnCooldown] /\
  Music.on_cooldown "pause" typed (fst (fst pressed)) = false.
Proof. split; [discriminate | by vm_compute]. Qed.

(** ** The reachable cogs are well formed *)

Lemma keeps_player_ret {A} (a : A) : keeps_player (ret a).
Proof. done. Qed.

Lemma keeps_player_read {A} (f : MusicController -> A) : keeps_player (read f).
Proof. done. Qed.

Lemma keeps_player_emit e : keeps_player (emit e).
Proof. done. Qed.

Lemma keeps_player_raise {A} e : keeps_player (@raise A e).
Proof. done. Qed.

Lemma keeps_player_suspend {A} : keeps_player (@suspend A).
Proof. done. Qed.

Lemma keeps_player_modify f :
  (forall c, player (f c) = player c) -> keeps_player (modify f).
Proof. intros H c. apply H. Qed.

Lemma keeps_player_bind {A B} (m : Cmd A) (k : A -> Cmd B) :
  keeps_player m -> (forall a, keeps_player (k a)) -> keeps_player (bind m k).
Proof.
  intros Hm Hk c. unfold bind. specialize (Hm c).
  destruct (m c) as [[c1 e1] [a|e|]]; try done.
  specialize (Hk a c1). destruct (k a c1) as [[c2 e2] r]. simpl in *. congruence.
Qed.

Lemma keeps_player_queue_get : keeps_player queue_get.
Proof. intros c. unfold queue_get. by destruct (queue c). Qed.

Create HintDb cmd.
#[local] Hint Resolve keeps_player_ret keeps_player_read keeps_player_emit
  keeps_player_raise keeps_player_suspend keeps_player_queue_get : cmd.

Ltac keeps_player :=
  repeat first
    [ progress intros
    | apply keeps_player_bind
    | apply keeps_player_modify; intros; reflexivity
    | solve [auto with cmd]
    | match goal with
      | |- keeps_player (if ?b then _ else _) => destruct b
      | |- keeps_player (match ?x with _ => _ end) => destruct x
      | |- keeps_player (let '(_, _) := ?x in _) => destruct x
      end ].

Lemma keeps_player_show_menu ctx : keeps_player (MusicBody.show_menu ctx).
Proof.
  unfold MusicBody.show_menu, InteractiveMenu.start, InteractiveMenu.update_menu,
    InteractiveMenu.send_initial_message. keeps_player.
Qed.

#[local] Hint Resolve keeps_player_show_menu : cmd.

Lemma keeps_player_player_attr {A} (f : Player -> A) : keeps_player (MusicBody.player_attr f).
Proof. unfold MusicBody.player_attr. keeps_player. Qed.

Lemma keeps_player_player_call e : keeps_player (MusicBody.player_call e).
Proof. unfold MusicBody.player_call. keeps_player. Qed.

Lemma keeps_player_queue_put x : keeps_player (queue_put x).
Proof. unfold queue_put. keeps_player. Qed.

Lemma keeps_player_attr_title x : keeps_player (attr_title x).
Proof. unfold attr_title. keeps_player. Qed.

#[local] Hint Resolve keeps_player_player_attr keeps_player_player_call
  keeps_player_queue_put keeps_player_attr_title : cmd.

Lemma keeps_player_clear_queue n : keeps_player (MusicBody.clear_queue n).
Proof. induction n; simpl; keeps_player. Qed.

Lemma keeps_player_drain n : forall i index fake removed,
  keeps_player (MusicBody.drain n i index fake removed).
Proof. induction n; intros; simpl; keeps_player. Qed.

Lemma keeps_player_refill n : forall fake, keeps_player (MusicBody.refill n fake).
Proof. induction n; intros; simpl; keeps_player. Qed.

#[local] Hint Resolve keeps_player_clear_queue keeps_player_drain
  keeps_player_refill : cmd.

Lemma keeps_player_repeat ctx : keeps_player (MusicBody.repeat ctx).
Proof. unfold MusicBody.repeat, reply. keeps_player. Qed.

#[local] Hint Resolve keeps_player_repeat : cmd.

Lemma keeps_player_commands ctx :
  keeps_player (MusicBody.queue_loop ctx) /\
  keeps_player (MusicBody.pause ctx) /\
  keeps_player (MusicBody.skip ctx) /\
  keeps_player (MusicBody.stop ctx) /\
  keeps_player (MusicBody.disconnect ctx) /\
  (forall draws, keeps_player (MusicBody.queue_shuffle ctx draws)) /\
  (forall v, keeps_player (MusicBody.volume ctx v)) /\
  (forall s d, keeps_player (MusicBody.queue_move ctx s d)) /\
  (forall i, keeps_player (MusicBody.queue_remove ctx i)).
Proof.
  unfold MusicBody.queue_loop, MusicBody.pause, MusicBody.skip, MusicBody.stop,
    MusicBody.disconnect, MusicBody.queue_shuffle, MusicBody.volume,
    MusicBody.queue_move, MusicBody.queue_remove, reply.
  repeat split; keeps_player.
Qed.

Lemma keeps_player_loop_step pc : keeps_player (ControllerLoop.loop_step pc).
Proof.
  destruct pc; unfold ControllerLoop.loop_step, InteractiveMenu.update_menu; keeps_player.
Qed.

Lemma wf_ext w w' :
  controllers w' = controllers w -> heap w' = heap w -> wf w -> wf w'.
Proof. unfold wf. by intros -> ->. Qed.

Lemma wf_insert w a c' :
  wf w ->
  (forall c, heap w !! a = Some c -> is_Some (player c')) ->
  wf (set_heap (<[a := c']> (heap w)) w).
Proof.
  intros [Hmap Hpl] Hc'. split; simpl.
  - by rewrite length_insert.
  - destruct (heap w !! a) as [c|] eqn:Ha.
    + apply Forall_insert; eauto.
    + rewrite list_insert_ge; [done|]. by apply lookup_ge_None.
Qed.

Lemma with_controller_wf {A} gid (body : Cmd A) w :
  keeps_player body -> wf w -> wf (fst (fst (Music.with_controller gid body w))).
Proof.
  intros Hbody Hwf.
  destruct (get_controller_spec gid w Hwf) as (c & _ & Hc & Hp & Hwf1 & _).
  destruct (with_controller_run gid body w Hwf) as (c0 & Hc0 & _ & _ & ->).
  cbv zeta in *. simpl. apply wf_insert; [done|].
  intros c1 Hc1. rewrite Hbody. congruence.
Qed.

Lemma disconnect_wf ctx w : wf w -> wf (fst (fst (Music.disconnect ctx w))).
Proof.
  intros Hwf. unfold Music.disconnect.
  pose proof (with_controller_wf (guild ctx) (MusicBody.disconnect ctx) w
                (proj1 (proj2 (proj2 (proj2 (proj2 (keeps_player_commands ctx)))))) Hwf) as H.
  destruct (Music.with_controller _ _ w) as [[w1 effs] [u|e|]]; try done.
  destruct (controllers w1 !! guild ctx); [|done].
  destruct H as [Hmap Hpl]. split; [|done]. simpl. by apply map_Forall_delete.
Qed.

Lemma callback_wf name cmd ctx w :
  Music.get_command name = Some cmd -> wf w -> wf (fst (fst (Music.callback cmd ctx w))).
Proof.
  intros H Hwf. apply get_command_cases in H as [_ H].
  destruct (keeps_player_commands ctx) as (Hql & Hpause & Hskip & Hstop & _ & Hsh & _).
  destruct H as [->|[->|[->|[->|[->|[->| ->]]]]]].
  - by apply disconnect_wf.
  - by apply with_controller_wf.
  - apply with_controller_wf; [apply keeps_player_repeat | done].
  - by apply with_controller_wf.
  - unfold Music.queue_shuffle.
    pose proof (with_controller_wf (guild ctx)
                  (MusicBody.queue_shuffle ctx (List.hd [] (entropy w))) w (Hsh _) Hwf) as H.
    by destruct (Music.with_controller _ _ w) as [[w1 effs] r].
  - by apply with_controller_wf.
  - by apply with_controller_wf.
Qed.

Lemma invoke_wf ctx w : wf w -> wf (fst (fst (Music.invoke ctx w))).
Proof.
  intros Hwf. unfold Music.invoke.
  destruct (command ctx) as [name|]; [|done].
  destruct (Music.get_command name) as [cmd|] eqn:Hcmd; [|done].
  destruct (Music.on_cooldown name ctx w); [done|].
  pose proof (callback_wf name cmd ctx (Music.update_rate_limit name ctx w) Hcmd Hwf) as H.
  by destruct (Music.callback cmd ctx _) as [[w1 effs] [[]|e|]].
Qed.

Lemma teardown_wf a w : wf w -> wf (fst (fst (Buttons.teardown a w))).
Proof.
  intros Hwf. unfold Buttons.teardown.
  destruct (heap w !! a) as [c|] eqn:Ha; [|done].
  destruct (message (menu c)); [|done]. simpl.
  apply wf_insert; [done|]. intros c1 Hc1. simpl.
  destruct Hwf as [_ Hpl]. eapply Forall_lookup_1 in Hpl; eauto.
Qed.

Lemma invoke_as_wf name a member w :
  wf w -> wf (fst (fst (Buttons.invoke_as name a member w))).
Proof.
  intros Hwf. unfold Buttons.invoke_as.
  destruct (heap w !! a) as [c|]; [|done].
  destruct (InteractiveMenu.update_context (menu c) member) as [ctx|]; [|done].
  destruct (Music.get_command name) as [cmd|]; [|done].
  match goal with |- context [Music.invoke ?ctx w] =>
    pose proof (invoke_wf ctx w Hwf) as H;
    destruct (Music.invoke ctx w) as [[w1 effs] [[]|e|]] end; done.
Qed.

Lemma press_wf b a member w : wf w -> wf (fst (fst (Buttons.press b a member w))).
Proof.
  intros Hwf. unfold Buttons.press.
  destruct (heap w !! a) as [c|]; [|done].
  destruct (running (menu c)); [|done].
  assert (Htd : forall name,
    wf (fst (fst (match Buttons.invoke_as name a member w with
                  | (w1, effs, Ret _) =>
                      let '(w2, effs2, r) := Buttons.teardown a w1 in (w2, effs ++ effs2, r)
                  | other => other
                  end)))).
  { intros name. pose proof (invoke_as_wf name a member w Hwf) as H.
    destruct (Buttons.invoke_as name a member w) as [[w1 effs] [u|e|]]; try done.
    pose proof (teardown_wf a w1 H) as H'.
    by destruct (Buttons.teardown a w1) as [[w2 effs2] r]. }
  destruct b; try (by apply invoke_as_wf); apply Htd.
Qed.

Lemma step_task_wf i w : wf w -> wf (fst (EventLoop.step_task i w)).
Proof.
  intros Hwf. unfold EventLoop.step_task.
  destruct (tasks w !! i) as [[a [pc|e]]|]; try done.
  destruct (heap w !! a) as [c|] eqn:Ha; [|done].
  pose proof (keeps_player_loop_step pc c) as Hp.
  assert (Hc : is_Some (player c)).
  { destruct Hwf as [_ Hpl]. eapply Forall_lookup_1 in Hpl; eauto. }
  destruct (ControllerLoop.loop_step pc c) as [[c' effs] [pc'|e|]]; simpl in *;
    (eapply wf_ext; [| |apply (wf_insert w a c' Hwf); intros; by rewrite Hp]); done.
Qed.

(** Every reachable cog is well formed. *)
Lemma reachable_wf w : reachable w -> wf w.
Proof.
  induction 1 as [players draws | w w' _ IH Hstep]; [apply wf_init|].
  destruct Hstep.
  - by apply with_controller_wf.
  - by apply invoke_wf.
  - done.
  - by apply press_wf.
  - destruct event; try done; apply with_controller_wf; try done;
      unfold modify; by intros c.
  - by apply step_task_wf.
  - unfold EventLoop.player_update. destruct (heap w !! a); [|done].
    apply wf_insert; [done|]. intros; by eexists.
  - destruct IH as [_ Hpl]. split; [apply map_Forall_empty | done].
Qed.

(** * More properties of the cog *)

(** ** Shuffling *)

Lemma shuffle_Permutation i : forall draws (x : list TrackRef),
  MusicBody.shuffle i draws x ≡ₚ x.
Proof.
  induction i as [|i IH]; intros draws x; [done|].
  change (MusicBody.shuffle (S i) draws x)
    with (match x !! S i, x !! (List.hd O draws `mod` S (S i))%nat with
          | Some xi, Some xj =>
              MusicBody.shuffle i (List.tl draws)
                (<[(List.hd O draws `mod` S (S i))%nat := xi]> (<[S i := xj]> x))
          | _, _ => x
          end).
  destruct (x !! S i) as [xi|] eqn:Hi; [|done].
  destruct (x !! (List.hd O draws `mod` S (S i))%nat) as [xj|] eqn:Hj; [|done].
  rewrite IH. by apply Permutation_insert_swap.
Qed.

Lemma queue_shuffle_run ctx draws c :
  MusicBody.queue_shuffle ctx draws c
  = if empty (queue c) then (c, [Reply "There's nothing to shuffle!"], Ret tt)
    else
      let '(c2, e2, r) :=
        MusicBody.show_menu ctx
          (set_queue (MusicBody.shuffle (length (queue c) - 1) draws (queue c)) c) in
      (c2, Reply "🔀 **Shuffled**!" :: e2, r).
Proof.
  unfold MusicBody.queue_shuffle, bind, read, modify, reply, emit. simpl.
  destruct (empty (queue c)); [done|].
  by destruct (MusicBody.show_menu ctx _) as [[c2 e2] r].
Qed.

(** X1. [queue_shuffle] never loses or duplicates a track: whatever the
    random draws, the queue afterwards is a permutation of the queue
    before, and nothing but the queue and the menu changes.  An empty
    queue is answered with "There's nothing to shuffle!" and left alone. *)
Theorem queue_shuffle_permutes (ctx : Context) (draws : list nat) (c : MusicController) :
  queue (fst (fst (MusicBody.queue_shuffle ctx draws c))) ≡ₚ queue c /\
  set_menu (menu c) (set_queue (queue c) (fst (fst (MusicBody.queue_shuffle ctx draws c)))) = c /\
  (queue c = [] ->
     MusicBody.queue_shuffle ctx draws c = (c, [Reply "There's nothing to shuffle!"], Ret tt)).
Proof.
  rewrite queue_shuffle_run.
  destruct (queue c) as [|x q] eqn:Hq; simpl empty; cbv iota.
  - simpl. rewrite Hq. split; [done|]. split; [|done]. rewrite <- Hq. by destruct c.
  - set (c1 := set_queue (MusicBody.shuffle (length (x :: q) - 1) draws (x :: q)) c).
    destruct (show_menu_spec ctx c1) as [_ Hmenu].
    destruct (MusicBody.show_menu ctx c1) as [[c2 e2] r]. cbn [fst] in *.
    assert (Hc2 : queue c2 = queue c1) by (by rewrite <- Hmenu).
    split; [|split; [|done]].
    + rewrite Hc2. unfold c1. simpl queue. apply shuffle_Permutation.
    + rewrite <- Hq.
      transitivity (set_menu (menu c) (set_queue (queue c) (set_menu (menu c1) c2))).
      { by destruct c2. }
      rewrite Hmenu. unfold c1. by destruct c.
Qed.

(** ** Stopping and clearing *)

(** X2. [stop] on a playing player stops it, turns both loops off and
    empties the queue, and keeps the volume and the current track; when
    the finish event then arrives, the loop plays nothing more and waits
    on the empty queue, whatever the loop flags were.  On an idle player
    [stop] changes nothing. *)
Theorem stop_then_idle (ctx : Context) (c : MusicController) (p : Player) :
  player c = Some p ->
  (is_playing p = true ->
     (MusicBody.stop ctx ;; Playback.finished ;;
      ControllerLoop.run 3 ControllerLoop.AtWait) c
     = (set_next false
          (set_queue [] (set_is_single_loop false (set_is_queue_loop false c))),
        [PlayerStop; Reply "Stopped the player."], Suspend)) /\
  (is_playing p = false ->
     MusicBody.stop ctx c = (c, [Reply "There's nothing to stop."], Ret tt)).
Proof.
  intros Hp. split; intros Hplaying.
  - unfold bind at 1. rewrite stop_body, Hp, Hplaying. reflexivity.
  - by rewrite stop_body, Hp, Hplaying.
Qed.

Lemma stop_then_idle_witness :
  (MusicBody.stop example_context ;; Playback.finished ;;
   ControllerLoop.run 3 ControllerLoop.AtWait) example_controller
  = (set_next false (set_queue [] (set_is_queue_loop false example_controller)),
     [PlayerStop; Reply "Stopped the player."], Suspend).
Proof.
  destruct (stop_then_idle example_context example_controller example_player) as [H _];
    [reflexivity|].
  rewrite H; reflexivity.
Defined.

(** X3. [queue_clear] empties the queue and replies; it sends nothing to
    the player and leaves the current track, the loop flags, the volume
    and the menu as they are.  With queue loop on, the current track is
    therefore put back when it finishes: the queue then holds that track
    alone. *)
Theorem queue_clear_keeps_current (ctx : Context) (c : MusicController) :
  MusicBodyExt.queue_clear ctx c = (set_queue [] c, [Reply "Cleared song queue!"], Ret tt) /\
  (MusicBodyExt.queue_clear ctx ;; Playback.finished ;;
   ControllerLoop.loop_step ControllerLoop.AtWait) c
  = (set_next true
       (set_queue (if is_queue_loop c then [current_track c] else []) c),
     [Reply "Cleared song queue!"], Ret ControllerLoop.AtClear).
Proof.
  assert (Hrun : MusicBodyExt.queue_clear ctx c
                 = (set_queue [] c, [Reply "Cleared song queue!"], Ret tt)).
  { unfold MusicBodyExt.queue_clear. unfold bind at 1. unfold read at 1.
    pose proof (clear_queue_all (queue c) c) as Hclear.
    rewrite set_queue_id in Hclear. unfold bind at 1. by rewrite Hclear. }
  split; [done|]. unfold bind at 1. rewrite Hrun.
  unfold Playback.finished, ControllerLoop.loop_step, bind, modify, read, ret, queue_put.
  simpl. by destruct (is_queue_loop c).
Qed.

(** ** Playback order *)

Section PlaybackOrder.

Import ControllerLoop.

(** From the call of the player to the wait. *)
Lemma run_play c ch p :
  channel c = Some ch ->
  player c = Some p ->
  renders c ->
  run 3 AtPlay c
  = (c, [PlayerPlay (current_track c); ChannelSend ch (current_track c)] ++ menu_effects c,
     Ret AtWait).
Proof.
  intros Hch Hp Hr.
  unfold run, loop_step, MusicBody.player_call, InteractiveMenu.update_menu, menu_effects,
    bind, read, ret, emit, raise.
  destruct (message (menu c)) as [m|] eqn:Hm.
  - destruct (Hr m Hm) as [[t Ht] Hhead].
    destruct (queue c) as [|[u|] q] eqn:Hq.
    + by repeat (cbn; rewrite ?Hp, ?Hch, ?Hm, ?Ht, ?Hq).
    + by repeat (cbn; rewrite ?Hp, ?Hch, ?Hm, ?Ht, ?Hq).
    + by destruct (Hhead None eq_refl).
  - by repeat (cbn; rewrite ?Hp, ?Hch, ?Hm).
Qed.

(** X4. With single loop on, a finish event makes the loop play the
    current track again without taking anything from the queue.  When queue
    loop is on as well, every such replay puts one more copy of the
    current track at the tail of the queue. *)
Theorem single_loop_replays (c : MusicController) (ch : Z) (p : Player) :
  channel c = Some ch ->
  player c = Some p ->
  is_single_loop c = true ->
  renders c ->
  exists c' effs,
    Playback.replay c = (c', effs, Ret AtWait) /\
    Playback.played effs = [current_track c] /\
    current_track c' = current_track c /\
    queue c' = queue c ++ (if is_queue_loop c then [current_track c] else []) /\
    c' = set_next false (set_queue (queue c') c).
Proof.
  intros Hch Hp Hs Hr.
  set (c1 := set_queue (queue c ++ (if is_queue_loop c then [current_track c] else [])) c).
  assert (Hr1 : renders (set_next false c1)).
  { intros m Hm. destruct (Hr m Hm) as [Ht Hhead]. split; [done|].
    intros x. simpl. destruct (queue c) as [|y q] eqn:Hq; simpl.
    - destruct (is_queue_loop c); [|done]. simpl. by intros [= <-].
    - intros [= <-]. by apply Hhead. }
  pose proof (run_play (set_next false c1) ch p Hch Hp Hr1) as Hplay.
  exists (set_next false c1). eexists. split.
  - unfold Playback.replay, Playback.finished.
    unfold bind at 1. unfold modify at 1.
    change (run 5 AtWait (set_next true c))
      with (bind (loop_step AtWait) (fun pc => bind (loop_step pc) (fun pc => run 3 pc))
              (set_next true c)).
    assert (Hwake : loop_step AtWait (set_next true c) = (set_next true c1, [], Ret AtClear)).
    { unfold loop_step, bind, read, ret, queue_put, modify. simpl. unfold c1.
      destruct (is_queue_loop c); simpl; [done|]. by rewrite app_nil_r, set_queue_id. }
    erewrite bind_Ret by exact Hwake.
    assert (Hclear : loop_step AtClear (set_next true c1) = (set_next false c1, [], Ret AtPlay)).
    { unfold loop_step, bind, modify, read, ret. simpl. by rewrite Hs. }
    erewrite bind_Ret by exact Hclear.
    rewrite Hplay. reflexivity.
  - simpl. split; [|by repeat split].
    unfold menu_effects. simpl.
    destruct (message (menu c)); [|done]. by destruct (current_track c).
Qed.





End PlaybackOrder.

Lemma single_loop_replays_witness :
  exists c' effs,
    Playback.replay (set_current_track (example_track "C")
                       (set_is_single_loop true example_controller))
    = (c', effs, Ret ControllerLoop.AtWait) /\
    Playback.played effs = [example_track "C"] /\
    queue c' = [example_track "A"; example_track "B"; example_track "C"].
Proof.
  destruct (single_loop_replays
              (set_current_track (example_track "C")
                 (set_is_single_loop true example_controller)) 10 example_player)
    as (c' & effs & Hrun & Hplayed & _ & Hqueue & _); try reflexivity.
  - intros m Hm. discriminate Hm.
  - by exists c', effs.
Defined.


(** ** Pausing and resuming *)

(** X6. On a playing player [pause] toggles: it sends [set_pause] with the
    opposite of the player's paused state.  [resume] never pauses: it sends
    [set_pause(False)] to a paused player and nothing to a running one.  On
    an idle player neither sends anything.  Both leave everything but the
    menu as it is. *)
Theorem pause_toggles_resume_resumes (ctx : Context) (c : MusicController) :
  player_calls (snd (fst (MusicBody.pause ctx c)))
    = match player c with
      | Some p => if is_playing p then [PlayerSetPause (negb (paused p))] else []
      | None => []
      end /\
  player_calls (snd (fst (MusicBodyExt.resume ctx c)))
    = match player c with
      | Some p => if is_playing p && paused p then [PlayerSetPause false] else []
      | None => []
      end /\
  set_menu (menu c) (fst (fst (MusicBody.pause ctx c))) = c /\
  set_menu (menu c) (fst (fst (MusicBodyExt.resume ctx c))) = c.
Proof. case_controller c; by repeat split. Qed.

(** ** Moving and removing, there and back *)

(** [queue_move] with valid indices, as a function on the queue. *)
Lemma queue_move_queue ctx c (s d : Z) x :
  1 <= s <= qsize (queue c) ->
  1 <= d <= qsize (queue c) ->
  queue c !! Z.to_nat (s - 1) = Some x ->
  fst (fst (MusicBody.queue_move ctx s d c))
  = set_queue (take (Z.to_nat (d - 1)) (delete (Z.to_nat (s - 1)) (queue c))
               ++ x :: drop (Z.to_nat (d - 1)) (delete (Z.to_nat (s - 1)) (queue c))) c.
Proof.
  intros Hs Hd Hx.
  assert (Hlen : (Z.to_nat (s - 1) < length (queue c))%nat) by (by eapply lookup_lt_Some).
  unfold MusicBody.queue_move.
  erewrite bind_Ret by reflexivity.
  rewrite <- !orb_assoc, (orb_assoc (_ <? _)), index_check_valid by done.
  rewrite index_check_valid by done. cbn [orb].
  rewrite drain_refill with (x := x) by (done || lia).
  set (rest := delete (Z.to_nat (s - 1)) (queue c)).
  assert (Hrest : length rest = (length (queue c) - 1)%nat)
    by (unfold rest; rewrite length_delete by eauto; lia).
  unfold bind, modify. simpl.
  assert (Hins : deque_insert (d - 1) x rest
                 = take (Z.to_nat (d - 1)) rest ++ x :: drop (Z.to_nat (d - 1)) rest).
  { unfold deque_insert, qsize. unfold qsize in Hd.
    destruct (Z.ltb_spec (d - 1) 0); [lia|].
    by rewrite Z.min_l by lia. }
  change (queue (set_queue rest c)) with rest. rewrite Hins.
  by destruct x.
Qed.

(** X7. [queue_move] never loses or duplicates a track, and it can be
    undone: moving a track from [s] to [d] and then from [d] to [s] gives
    the controller back as it was.  In particular a move from an index to
    itself changes nothing. *)
Theorem queue_move_there_and_back (ctx ctx' : Context) (c : MusicController) (s d : Z) :
  1 <= s <= qsize (queue c) ->
  1 <= d <= qsize (queue c) ->
  let c1 := fst (fst (MusicBody.queue_move ctx s d c)) in
  queue c1 ≡ₚ queue c /\
  fst (fst (MusicBody.queue_move ctx' d s c1)) = c /\
  (s = d -> c1 = c).
Proof.
  intros Hs Hd.
  destruct (valid_index_lookup _ _ Hs) as [x Hx].
  assert (Hlen : (Z.to_nat (s - 1) < length (queue c))%nat) by (by eapply lookup_lt_Some).
  set (s' := Z.to_nat (s - 1)) in *. set (d' := Z.to_nat (d - 1)).
  set (rest := delete s' (queue c)).
  assert (Hrest : length rest = (length (queue c) - 1)%nat)
    by (unfold rest; rewrite length_delete by eauto; lia).
  assert (Hd' : (d' <= length rest)%nat) by (unfold qsize in Hd; lia).
  assert (Hback : take s' rest ++ x :: drop s' rest = queue c).
  { unfold rest. rewrite delete_take_drop.
    rewrite take_app_le, drop_app_ge by (rewrite length_take; lia).
    rewrite take_take, length_take, Nat.min_id.
    replace (s' `min` length (queue c))%nat with s' by lia.
    rewrite Nat.sub_diag, drop_0. by apply take_drop_middle. }
  cbv zeta. rewrite (queue_move_queue ctx c s d x Hs Hd Hx).
  fold s' d' rest.
  set (q1 := take d' rest ++ x :: drop d' rest).
  assert (Hq1 : q1 !! d' = Some x).
  { unfold q1. rewrite lookup_app_r by (rewrite length_take; lia).
    rewrite length_take. by replace (_ - _)%nat with 0%nat by lia. }
  assert (Hdel : delete d' q1 = rest).
  { unfold q1.
    replace d' with (length (take d' rest)) at 1 by (rewrite length_take; lia).
    by rewrite delete_middle, take_drop. }
  assert (Hlen1 : qsize q1 = qsize (queue c)).
  { unfold qsize, q1. rewrite length_app, length_take. simpl. rewrite length_drop. lia. }
  split; [|split].
  - simpl. unfold q1. rewrite <- Permutation_middle, take_drop.
    symmetry. by apply delete_Permutation.
  - rewrite (queue_move_queue ctx' (set_queue q1 c) d s x); simpl; rewrite ?Hlen1; try done.
    fold d'. rewrite Hdel. fold s'. rewrite Hback. by destruct c.
  - intros ->. fold s' in d'. subst d'. unfold q1. rewrite Hback. by destruct c.
Qed.

Lemma queue_move_there_and_back_witness :
  let c := set_queue example_queue (MusicController_init example_player 1) in
  let c1 := fst (fst (MusicBody.queue_move example_context 4 2 c)) in
  queue c1 = [example_track "A"; example_track "D"; example_track "B";
              example_track "C"; example_track "E"] /\
  fst (fst (MusicBody.queue_move example_context 2 4 c1)) = c.
Proof.
  split; [reflexivity|].
  apply (queue_move_there_and_back example_context example_context
           (set_queue example_queue (MusicController_init example_player 1)) 4 2);
    index_bounds.
Defined.

(** X8. Putting a track at the tail and removing the last index undoes the
    put: the queue is as before and the reply names that track. *)
Theorem put_then_remove_last (ctx : Context) (c : MusicController) (t : Track) :
  (queue_put (Some t) ;; MusicBody.queue_remove ctx (qsize (queue c) + 1)) c
  = (c, [Reply (removed_text (title t))], Ret tt).
Proof.
  unfold bind at 1. unfold queue_put, modify.
  set (c1 := set_queue (queue c ++ [Some t]) c).
  assert (Hx : queue c1 !! Z.to_nat (qsize (queue c) + 1 - 1) = Some (Some t)).
  { unfold qsize. simpl. replace (Z.to_nat _) with (length (queue c) + 0)%nat by lia.
    by rewrite lookup_app_r, Nat.add_0_r, Nat.sub_diag by lia. }
  unfold MusicBody.queue_remove.
  erewrite bind_Ret by reflexivity.
  rewrite index_check_valid.
  2:{ unfold qsize, c1. simpl. rewrite length_app. simpl. lia. }
  rewrite drain_refill with (x := Some t) by (done || (unfold qsize; lia)).
  unfold bind, attr_title, ret, reply, emit, removed_text. simpl.
  replace (Z.to_nat (qsize (queue c) + 1 - 1)) with (length (queue c) + 0)%nat
    by (unfold qsize; lia).
  rewrite Nat.add_0_r. unfold c1. simpl queue.
  rewrite delete_middle, app_nil_r. by destruct c.
Qed.

(** ** What the commands leave alone

    The commands write the queue, the menu, the two loop flags, the text
    channel and the volume, and nothing else. *)

Section Frame.

Context {B : Type} (f : MusicController -> B).

Lemma preserves_ret {A} (a : A) : preserves f (ret a).
Proof. done. Qed.

Lemma preserves_read {A} (g : MusicController -> A) : preserves f (read g).
Proof. done. Qed.

Lemma preserves_emit e : preserves f (emit e).
Proof. done. Qed.

Lemma preserves_raise {A} e : preserves f (@raise A e).
Proof. done. Qed.

Lemma preserves_suspend {A} : preserves f (@suspend A).
Proof. done. Qed.

Lemma preserves_modify g : (forall c, f (g c) = f c) -> preserves f (modify g).
Proof. intros H c. apply H. Qed.

Lemma preserves_bind {A A'} (m : Cmd A) (k : A -> Cmd A') :
  preserves f m -> (forall a, preserves f (k a)) -> preserves f (bind m k).
Proof.
  intros Hm Hk c. unfold bind. specialize (Hm c).
  destruct (m c) as [[c1 e1] [a|e|]]; try done.
  specialize (Hk a c1). destruct (k a c1) as [[c2 e2] r]. simpl in *. congruence.
Qed.

Lemma preservesX_ret {A} (a : A) : preservesX f (retX a).
Proof. done. Qed.

Lemma preservesX_emit o : preservesX f (emitX o).
Proof. done. Qed.

Lemma preservesX_lift {A} (m : Cmd A) : preserves f m -> preservesX f (lift m).
Proof. intros Hm c. unfold lift. specialize (Hm c). by destruct (m c) as [[c1 e1] r]. Qed.

Lemma preservesX_bind {A A'} (m : CmdX A) (k : A -> CmdX A') :
  preservesX f m -> (forall a, preservesX f (k a)) -> preservesX f (bindX m k).
Proof.
  intros Hm Hk c. unfold bindX. specialize (Hm c).
  destruct (m c) as [[c1 e1] [a|e|]]; try done.
  specialize (Hk a c1). destruct (k a c1) as [[c2 e2] r]. simpl in *. congruence.
Qed.

(** An attribute that none of the writes below touches. *)
Hypothesis Hqueue : forall q c, f (set_queue q c) = f c.

Lemma preserves_queue_get : preserves f queue_get.
Proof. intros c. unfold queue_get. destruct (queue c); simpl; auto. Qed.

Lemma preserves_queue_put x : preserves f (queue_put x).
Proof. intros c. unfold queue_put, modify. simpl. auto. Qed.

End Frame.

(** Splits a coroutine along its binds and branches. *)
Ltac frame :=
  repeat first
    [ progress intros
    | apply preserves_bind
    | apply preservesX_bind
    | apply preservesX_lift
    | apply preserves_ret
    | apply preserves_read
    | apply preserves_emit
    | apply preserves_raise
    | apply preserves_suspend
    | apply preservesX_ret
    | apply preservesX_emit
    | apply preserves_queue_get; solve [auto]
    | apply preserves_queue_put; solve [auto]
    | apply preserves_modify; intros; solve [auto]
    | solve [auto]
    | match goal with
      | |- preserves _ (if ?b then _ else _) => destruct b
      | |- preserves _ (match ?x with _ => _ end) => destruct x
      | |- preservesX _ (if ?b then _ else _) => destruct b
      | |- preservesX _ (match ?x with _ => _ end) => destruct x
      end ].

Section CommandFrame.

Context {B : Type} (f : MusicController -> B).

Hypothesis Hqueue : forall q c, f (set_queue q c) = f c.
Hypothesis Hmenu : forall m c, f (set_menu m c) = f c.
Hypothesis Hsingle : forall b c, f (set_is_single_loop b c) = f c.
Hypothesis Hqloop : forall b c, f (set_is_queue_loop b c) = f c.
Hypothesis Hchannel : forall ch c, f (set_channel ch c) = f c.

Lemma preserves_show_menu ctx : preserves f (MusicBody.show_menu ctx).
Proof.
  unfold MusicBody.show_menu, InteractiveMenu.start, InteractiveMenu.update_menu,
    InteractiveMenu.send_initial_message. frame.
Qed.

Lemma preserves_clear_queue n : preserves f (MusicBody.clear_queue n).
Proof. induction n; simpl; frame. Qed.

Lemma preserves_drain n : forall i index fake removed,
  preserves f (MusicBody.drain n i index fake removed).
Proof. induction n; intros; simpl; frame. Qed.

Lemma preserves_refill n : forall fake, preserves f (MusicBody.refill n fake).
Proof. induction n; intros; simpl; frame. Qed.

Lemma preservesX_put_all ctx ts : preservesX f (MusicBodyX.put_all ctx ts).
Proof. induction ts; simpl; frame. Qed.

Lemma preserves_repeat ctx : preserves f (MusicBody.repeat ctx).
Proof.
  pose proof (preserves_show_menu ctx).
  unfold MusicBody.repeat, reply. frame.
Qed.

(** The commands, but for [volume]. *)
Lemma commands_preserve ctx :
  preserves f (MusicBody.repeat ctx) /\
  preserves f (MusicBody.queue_loop ctx) /\
  preserves f (MusicBody.pause ctx) /\
  preserves f (MusicBodyExt.resume ctx) /\
  preserves f (MusicBody.skip ctx) /\
  preserves f (MusicBody.stop ctx) /\
  preserves f (MusicBody.disconnect ctx) /\
  preserves f (MusicBodyExt.queue_clear ctx) /\
  (forall draws, preserves f (MusicBody.queue_shuffle ctx draws)) /\
  (forall s d, preserves f (MusicBody.queue_move ctx s d)) /\
  (forall i, preserves f (MusicBody.queue_remove ctx i)) /\
  (forall vc, preservesX f (MusicBodyX.connect ctx vc)) /\
  (forall tracks, preservesX f (MusicBodyX.play ctx tracks)) /\
  (forall secs pos, preservesX f (MusicBodyX.seek ctx secs pos)) /\
  (forall td name now, preservesX f (Display.queue_display td ctx name now)).
Proof.
  pose proof (preserves_show_menu ctx).
  pose proof preserves_clear_queue. pose proof preserves_drain.
  pose proof preserves_refill. pose proof (preservesX_put_all ctx).
  pose proof (preserves_repeat ctx).
  unfold MusicBody.queue_loop, MusicBody.pause, MusicBodyExt.resume, MusicBody.skip,
    MusicBody.stop, MusicBody.disconnect, MusicBodyExt.queue_clear,
    MusicBody.queue_shuffle, MusicBody.queue_move, MusicBody.queue_remove,
    MusicBodyX.connect, MusicBodyX.play, MusicBodyX.seek,
    MusicBody.player_attr, MusicBody.player_call, MusicBodyX.player_callX,
    MusicBodyX.replyX, attr_title, reply.
  repeat split; frame.
  intros c. unfold Display.queue_display. repeat case_match; done.
Qed.

End CommandFrame.

(** ** The invariant of the cog *)

Lemma identity_sound c c' :
  identity c' = identity c -> sound c -> sound c' /\ guild_id c' = guild_id c.
Proof. unfold identity, sound. intros [= -> -> ->]. by intros. Qed.

Lemma preserves_steady {A} (m : Cmd A) : preserves identity m -> steady m.
Proof. intros H c. apply identity_sound, H. Qed.

Lemma preservesX_steady {A} (m : CmdX A) : preservesX identity m -> steady m.
Proof. intros H c. apply identity_sound, H. Qed.

Lemma commands_steady ctx :
  steady (MusicBody.repeat ctx) /\
  steady (MusicBody.queue_loop ctx) /\
  steady (MusicBody.pause ctx) /\
  steady (MusicBodyExt.resume ctx) /\
  steady (MusicBody.skip ctx) /\
  steady (MusicBody.stop ctx) /\
  steady (MusicBody.disconnect ctx) /\
  steady (MusicBodyExt.queue_clear ctx) /\
  (forall draws, steady (MusicBody.queue_shuffle ctx draws)) /\
  (forall s d, steady (MusicBody.queue_move ctx s d)) /\
  (forall i, steady (MusicBody.queue_remove ctx i)) /\
  (forall vc, steady (MusicBodyX.connect ctx vc)) /\
  (forall tracks, steady (MusicBodyX.play ctx tracks)) /\
  (forall secs pos, steady (MusicBodyX.seek ctx secs pos)) /\
  (forall td name now, steady (Display.queue_display td ctx name now)).
Proof.
  destruct (commands_preserve identity) with (ctx := ctx)
    as (?&?&?&?&?&?&?&?&?&?&?&?&?&?&?); try done.
  repeat split; intros; first [by apply preserves_steady | by apply preservesX_steady].
Qed.

(** [volume] clamps. *)
Lemma volume_steady ctx v : steady (MusicBody.volume ctx v).
Proof.
  intros c [Hp _].
  pose proof (preserves_show_menu (fun c => (guild_id c, player c, volume c))) as Hmenu.
  assert (Hframe : preserves (fun c => (guild_id c, player c))
                     (MusicBody.volume ctx v)).
  { pose proof (preserves_show_menu (fun c => (guild_id c, player c))
                  (fun _ _ => eq_refl) ctx).
    unfold MusicBody.volume, MusicBody.player_call, reply. frame. }
  assert (Hvol : volume (fst (fst (MusicBody.volume ctx v c))) = Z.max (Z.min v 200) 0).
  { unfold MusicBody.volume. unfold bind at 1. unfold modify at 1.
    pose proof (commands_preserve volume) as H.
    assert (Hrest : preserves volume
              (MusicBody.player_call (PlayerSetVolume (Z.max (Z.min v 200) 0)) ;;
               reply ("Set volume to " +:+ pretty (Z.max (Z.min v 200) 0) +:+ ".") ;;
               MusicBody.show_menu ctx)).
    { pose proof (preserves_show_menu volume (fun _ _ => eq_refl) ctx).
      unfold MusicBody.player_call, reply. frame. }
    specialize (Hrest (set_volume (Z.max (Z.min v 200) 0) c)).
    destruct ((_ ;; _) (set_volume _ c)) as [[c2 e2] r]. simpl in *. by rewrite Hrest. }
  specialize (Hframe c). simpl in Hframe. injection Hframe as Hg Hpl.
  unfold sound. rewrite Hpl, Hvol. repeat split; [done|lia|lia|done].
Qed.

Section LoopFrame.

Context {B : Type} (f : MusicController -> B).

Hypothesis Hqueue : forall q c, f (set_queue q c) = f c.
Hypothesis Hnext : forall b c, f (set_next b c) = f c.
Hypothesis Hcurrent : forall t c, f (set_current_track t c) = f c.

Lemma preserves_loop_step pc : preserves f (ControllerLoop.loop_step pc).
Proof.
  destruct pc;
    unfold ControllerLoop.loop_step, InteractiveMenu.update_menu,
      MusicBody.player_call; frame.
Qed.

End LoopFrame.

Lemma loop_step_steady pc : steady (ControllerLoop.loop_step pc).
Proof. by apply preserves_steady, preserves_loop_step. Qed.

Lemma invariant_wf w : invariant w -> wf w.
Proof.
  intros [Hmap Hs]. split.
  - intros gid a Ha. destruct (Hmap gid a Ha) as (c & Hc & _).
    by eapply lookup_lt_Some.
  - eapply Forall_impl; [exact Hs|]. by intros c [Hp _].
Qed.

Lemma invariant_ext w w' :
  controllers w' = controllers w -> heap w' = heap w -> invariant w -> invariant w'.
Proof. unfold invariant. by intros -> ->. Qed.

Lemma apart_refl gid w : apart gid w w.
Proof. by intros gid' _. Qed.

Lemma apart_ext gid w w' :
  controllers w' = controllers w -> heap w' = heap w -> apart gid w w'.
Proof. intros Hc Hh gid' _. by rewrite Hc, Hh. Qed.

Lemma apart_trans gid w1 w2 w3 : apart gid w1 w2 -> apart gid w2 w3 -> apart gid w1 w3.
Proof.
  intros H12 H23 gid' Hne.
  destruct (H12 gid' Hne) as [Hc12 Hh12], (H23 gid' Hne) as [Hc23 Hh23].
  split; [congruence|]. intros a Ha.
  rewrite Hh23; [by apply Hh12 | congruence].
Qed.

(** Writing to an object keeps the invariant when the object stays sound
    and of its guild. *)
Lemma invariant_insert w a c' :
  invariant w ->
  (forall c, heap w !! a = Some c -> sound c' /\ guild_id c' = guild_id c) ->
  invariant (set_heap (<[a := c']> (heap w)) w).
Proof.
  intros [Hmap Hs] Hc'. split; simpl.
  - intros gid b Hb. destruct (Hmap gid b Hb) as (c & Hc & Hg).
    destruct (decide (a = b)) as [->|Hne].
    + exists c'. split.
      * apply list_lookup_insert_eq. by eapply lookup_lt_Some.
      * destruct (Hc' c Hc) as [_ ->]. done.
    + exists c. by rewrite list_lookup_insert_ne.
  - destruct (heap w !! a) as [c|] eqn:Ha.
    + apply Forall_insert; [done|]. by destruct (Hc' c).
    + rewrite list_insert_ge; [done|]. by apply lookup_ge_None.
Qed.

(** The objects of two guilds are two objects. *)
Lemma invariant_apart_insert gid w a c' :
  invariant w -> controllers w !! gid = Some a ->
  apart gid w (set_heap (<[a := c']> (heap w)) w).
Proof.
  intros [Hmap _] Ha gid' Hne. split; [done|]. intros a' Ha'. simpl.
  apply list_lookup_insert_ne. intros ->.
  destruct (Hmap _ _ Ha) as (c & Hc & Hg), (Hmap _ _ Ha') as (c0 & Hc0 & Hg0).
  congruence.
Qed.

Lemma get_controller_local gid w :
  invariant w ->
  invariant (fst (Music.get_controller gid w)) /\
  apart gid w (fst (Music.get_controller gid w)) /\
  controllers (fst (Music.get_controller gid w)) !! gid
  = Some (snd (Music.get_controller gid w)).
Proof.
  intros Hinv. pose proof Hinv as [Hmap Hs].
  destruct (controllers w !! gid) as [a|] eqn:Hgid.
  - rewrite (get_controller_present _ _ _ Hgid). simpl.
    split; [done|]. split; [apply apart_refl | done].
  - rewrite (get_controller_absent _ _ Hgid). simpl. split; [|split].
    + split; simpl.
      * apply map_Forall_insert_2.
        -- eexists. split; [by rewrite lookup_app_r, Nat.sub_diag | done].
        -- intros g b Hb. destruct (Hmap g b Hb) as (c & Hc & Hg).
           exists c. split; [|done]. rewrite lookup_app_l; [done|].
           by eapply lookup_lt_Some.
      * apply Forall_app. split; [done|].
        constructor; [|constructor]. split; [by eexists | simpl; lia].
    + intros gid' Hne. split; simpl.
      * by rewrite lookup_insert_ne.
      * intros a Ha. destruct (Hmap _ _ Ha) as (c & Hc & _).
        rewrite lookup_app_l; [done|]. by eapply lookup_lt_Some.
    + by rewrite lookup_insert_eq.
Qed.

Lemma at_address_local {A} gid a (body : CmdX A) w :
  steady body -> invariant w -> controllers w !! gid = Some a ->
  invariant (fst (fst (MusicExt.at_address a body w))) /\
  apart gid w (fst (fst (MusicExt.at_address a body w))) /\
  controllers (fst (fst (MusicExt.at_address a body w))) = controllers w.
Proof.
  intros Hbody Hinv Ha. unfold MusicExt.at_address.
  destruct (heap w !! a) as [c|] eqn:Hc; [|by split; [|split; [apply apart_refl|]]].
  assert (Hsound : sound c).
  { destruct Hinv as [_ Hs]. eapply Forall_lookup_1 in Hs; eauto. }
  specialize (Hbody c Hsound).
  destruct (body c) as [[c' out] r]. simpl in *. split; [|split; [|done]].
  - apply invariant_insert; [done|]. intros c0 Hc0. congruence.
  - by apply invariant_apart_insert.
Qed.

Lemma with_controllerX_local {A} gid (body : CmdX A) w :
  steady body -> invariant w ->
  invariant (fst (fst (MusicExt.with_controllerX gid body w))) /\
  apart gid w (fst (fst (MusicExt.with_controllerX gid body w))).
Proof.
  intros Hbody Hinv. unfold MusicExt.with_controllerX.
  destruct (get_controller_local gid w Hinv) as (Hinv1 & Hap1 & Ha).
  destruct (Music.get_controller gid w) as [w1 a]. simpl in *.
  destruct (at_address_local gid a body w1 Hbody Hinv1 Ha) as (Hinv2 & Hap2 & _).
  split; [done|]. by eapply apart_trans.
Qed.

Lemma with_controller_local {A} gid (body : Cmd A) w :
  steady body -> invariant w ->
  invariant (fst (fst (Music.with_controller gid body w))) /\
  apart gid w (fst (fst (Music.with_controller gid body w))).
Proof.
  intros Hbody Hinv.
  assert (Hlift : steady (lift body)).
  { intros c Hc. unfold lift. specialize (Hbody c Hc). by destruct (body c) as [[c1 e1] r]. }
  pose proof (with_controllerX_local gid (lift body) w Hlift Hinv) as H.
  assert (Heq : fst (fst (MusicExt.with_controllerX gid (lift body) w))
                = fst (fst (Music.with_controller gid body w))).
  { unfold MusicExt.with_controllerX, Music.with_controller, MusicExt.at_address, lift.
    destruct (Music.get_controller gid w) as [w1 a].
    destruct (heap w1 !! a) as [c|]; [|done]. by destruct (body c) as [[c1 e1] r]. }
  by rewrite Heq in H.
Qed.

Lemma disconnect_local ctx w :
  invariant w ->
  invariant (fst (fst (Music.disconnect ctx w))) /\
  apart (guild ctx) w (fst (fst (Music.disconnect ctx w))).
Proof.
  intros Hinv. unfold Music.disconnect.
  destruct (commands_steady ctx) as (_&_&_&_&_&_&Hdc&_).
  pose proof (with_controller_local (guild ctx) _ w Hdc Hinv) as [Hinv1 Hap1].
  destruct (Music.with_controller _ _ w) as [[w1 effs] [u|e|]]; try done.
  destruct (controllers w1 !! guild ctx); [|done]. simpl in *. split.
  - destruct Hinv1 as [Hmap Hs]. split; [|done]. simpl. by apply map_Forall_delete.
  - eapply apart_trans; [exact Hap1|].
    intros gid' Hne. split; [|done]. simpl. by rewrite lookup_delete_ne.
Qed.

Lemma queue_shuffle_local ctx w :
  invariant w ->
  invariant (fst (fst (Music.queue_shuffle ctx w))) /\
  apart (guild ctx) w (fst (fst (Music.queue_shuffle ctx w))).
Proof.
  intros Hinv. unfold Music.queue_shuffle.
  destruct (commands_steady ctx) as (_&_&_&_&_&_&_&_&Hsh&_).
  pose proof (with_controller_local (guild ctx) _ w (Hsh (List.hd [] (entropy w))) Hinv)
    as [Hinv1 Hap1].
  by destruct (Music.with_controller _ _ w) as [[w1 effs] r].
Qed.

Lemma callback_local name cmd ctx w :
  Music.get_command name = Some cmd -> invariant w ->
  invariant (fst (fst (Music.callback cmd ctx w))) /\
  apart (guild ctx) w (fst (fst (Music.callback cmd ctx w))).
Proof.
  intros H Hinv. apply get_command_cases in H as [_ H].
  destruct (commands_steady ctx) as (Hrep & Hql & Hpause & _ & Hskip & Hstop & _).
  destruct H as [->|[->|[->|[->|[->|[->| ->]]]]]];
    first [ by apply disconnect_local | by apply queue_shuffle_local
          | by apply with_controller_local ].
Qed.

Lemma invoke_local ctx w :
  invariant w ->
  invariant (fst (fst (Music.invoke ctx w))) /\
  apart (guild ctx) w (fst (fst (Music.invoke ctx w))).
Proof.
  intros Hinv. unfold Music.invoke.
  destruct (command ctx) as [name|]; [|by split; [|apply apart_refl]].
  destruct (Music.get_command name) as [cmd|] eqn:Hcmd; [|by split; [|apply apart_refl]].
  destruct (Music.on_cooldown name ctx w); [by split; [|apply apart_refl]|].
  pose proof (callback_local name cmd ctx (Music.update_rate_limit name ctx w) Hcmd Hinv) as H.
  by destruct (Music.callback cmd ctx _) as [[w1 effs] [[]|e|]].
Qed.

Lemma connect_local ctx vc av w :
  invariant w ->
  invariant (fst (fst (MusicExt.connect ctx vc av w))) /\
  apart (guild ctx) w (fst (fst (MusicExt.connect ctx vc av w))).
Proof.
  intros Hinv. unfold MusicExt.connect.
  destruct (commands_steady ctx) as (_&_&_&_&_&_&_&_&_&_&_&Hcon&_).
  destruct vc as [vc|]; [|destruct av as [vc|]];
    first [ by apply with_controllerX_local | by split; [|apply apart_refl] ].
Qed.

(** A guild that has its controller keeps it over [connect]. *)
Lemma connect_keeps_entry ctx vc av w a :
  controllers w !! guild ctx = Some a ->
  controllers (fst (fst (MusicExt.connect ctx vc av w))) = controllers w.
Proof.
  intros Ha. unfold MusicExt.connect.
  assert (H : forall {A} (body : CmdX A),
            controllers (fst (fst (MusicExt.with_controllerX (guild ctx) body w)))
            = controllers w).
  { intros A body. unfold MusicExt.with_controllerX, MusicExt.at_address.
    rewrite (get_controller_present _ _ _ Ha).
    destruct (heap w !! a) as [c|]; [|done]. by destruct (body c) as [[c' out] r]. }
  destruct vc as [vc|]; [|destruct av as [vc|]]; first [apply H | done].
Qed.

Lemma play_local ctx av track get_tracks w :
  invariant w ->
  invariant (fst (fst (MusicExt.play ctx av track get_tracks w))) /\
  apart (guild ctx) w (fst (fst (MusicExt.play ctx av track get_tracks w))).
Proof.
  intros Hinv. unfold MusicExt.play.
  destruct (get_controller_local (guild ctx) w Hinv) as (Hinv1 & Hap1 & Ha).
  destruct (Music.get_controller (guild ctx) w) as [w1 a]. simpl in *.
  destruct (heap w1 !! a) as [c|]; [|done].
  destruct (player c) as [p|]; [|done].
  assert (H2 : forall x : MusicCog * list Output * Res unit,
    (invariant (fst (fst x)) /\ apart (guild ctx) w1 (fst (fst x)) /\
     controllers (fst (fst x)) = controllers w1) ->
    let '(w2, out1, r1) := x in
    invariant w2 /\ apart (guild ctx) w w2 /\ controllers w2 !! guild ctx = Some a).
  { intros [[w2 out1] r1] (? & ? & Hc). simpl in *.
    split; [done|]. split; [by eapply apart_trans | by rewrite Hc]. }
  match goal with |- context [if negb (is_connected p) then ?x else ?y] =>
    set (b := negb (is_connected p));
    assert (H : let '(w2, out1, r1) := (if b then x else y) in
                invariant w2 /\ apart (guild ctx) w w2 /\
                controllers w2 !! guild ctx = Some a);
    [ apply H2; destruct b;
      [ destruct (connect_local ctx None av w1 Hinv1); split; [done|];
        split; [done | exact (connect_keeps_entry ctx None av w1 a Ha)]
      | by split; [|split; [apply apart_refl|]] ]
    | destruct (if b then x else y) as [[w2 out1] r1] ]
  end.
  destruct H as (Hinv2 & Hap2 & Ha2).
  destruct r1 as [[]|e|]; try done.
  destruct av as [v|]; [|done].
  destruct (commands_steady ctx) as (_&_&_&_&_&_&_&_&_&_&_&_&Hplay&_).
  match goal with |- context [MusicExt.at_address a ?body w2] =>
    destruct (at_address_local (guild ctx) a body w2 (Hplay _) Hinv2 Ha2) as (? & ? & _);
    destruct (MusicExt.at_address a body w2) as [[w3 out2] r2] end.
  simpl in *. split; [done|]. by eapply apart_trans.
Qed.

(** A command keeps the invariant and stays within its guild. *)
Lemma command_move_local gid w w' :
  invariant w -> command_move gid w w' -> invariant w' /\ apart gid w w'.
Proof.
  intros Hinv Hmove. revert Hinv.
  destruct Hmove as [ctx w Hg|ctx s d w Hg|ctx i w Hg|ctx v w Hg|ctx w Hg|ctx w Hg
                    |ctx vc av w Hg|ctx av track get w Hg|ctx secs pos w Hg
                    |ctx name td now w Hg];
    intros Hinv; subst gid;
    destruct (commands_steady ctx)
      as (_&_&_&Hres&_&_&_&Hclear&_&Hmove&Hremove&_&_&Hseek&Hdisplay).
  - by apply invoke_local.
  - by apply with_controller_local.
  - by apply with_controller_local.
  - apply with_controller_local; [apply volume_steady | done].
  - by apply with_controller_local.
  - by apply with_controller_local.
  - by apply connect_local.
  - by apply play_local.
  - by apply with_controllerX_local.
  - by apply with_controllerX_local.
Qed.

Lemma teardown_invariant a w :
  invariant w -> invariant (fst (fst (Buttons.teardown a w))).
Proof.
  intros Hinv. unfold Buttons.teardown.
  destruct (heap w !! a) as [c|] eqn:Ha; [|done].
  destruct (message (menu c)); [|done]. simpl.
  apply invariant_insert; [done|]. intros c1 Hc1.
  destruct Hinv as [_ Hs]. eapply Forall_lookup_1 in Hs; eauto.
  assert (c1 = c) as -> by congruence. done.
Qed.

Lemma invoke_as_invariant name a member w :
  invariant w -> invariant (fst (fst (Buttons.invoke_as name a member w))).
Proof.
  intros Hinv. unfold Buttons.invoke_as.
  destruct (heap w !! a) as [c|]; [|done].
  destruct (InteractiveMenu.update_context (menu c) member) as [ctx|]; [|done].
  destruct (Music.get_command name) as [cmd|]; [|done].
  match goal with |- context [Music.invoke ?ctx w] =>
    pose proof (invoke_local ctx w Hinv) as [H _];
    destruct (Music.invoke ctx w) as [[w1 effs] [[]|e|]] end; done.
Qed.

Lemma press_invariant b a member w :
  invariant w -> invariant (fst (fst (Buttons.press b a member w))).
Proof.
  intros Hinv. unfold Buttons.press.
  destruct (heap w !! a) as [c|]; [|done].
  destruct (running (menu c)); [|done].
  assert (Htd : forall name,
    invariant (fst (fst (match Buttons.invoke_as name a member w with
                  | (w1, effs, Ret _) =>
                      let '(w2, effs2, r) := Buttons.teardown a w1 in (w2, effs ++ effs2, r)
                  | other => other
                  end)))).
  { intros name. pose proof (invoke_as_invariant name a member w Hinv) as H.
    destruct (Buttons.invoke_as name a member w) as [[w1 effs] [u|e|]]; try done.
    pose proof (teardown_invariant a w1 H) as H'.
    by destruct (Buttons.teardown a w1) as [[w2 effs2] r]. }
  destruct b; try (by apply invoke_as_invariant); apply Htd.
Qed.

Lemma step_task_invariant i w :
  invariant w -> invariant (fst (EventLoop.step_task i w)).
Proof.
  intros Hinv. unfold EventLoop.step_task.
  destruct (tasks w !! i) as [[a [pc|e]]|]; try done.
  destruct (heap w !! a) as [c|] eqn:Ha; [|done].
  assert (Hc : sound c).
  { destruct Hinv as [_ Hs]. eapply Forall_lookup_1 in Hs; eauto. }
  pose proof (loop_step_steady pc c Hc) as Hstep.
  destruct (ControllerLoop.loop_step pc c) as [[c' effs] [pc'|e|]]; simpl in *;
    (eapply invariant_ext; [| |apply (invariant_insert w a c' Hinv); intros; by simplify_eq]);
    done.
Qed.

Lemma player_update_invariant a p w :
  invariant w -> invariant (EventLoop.player_update a p w).
Proof.
  intros Hinv. unfold EventLoop.player_update.
  destruct (heap w !! a) as [c|] eqn:Ha; [|done].
  apply invariant_insert; [done|]. intros c1 Hc1.
  destruct Hinv as [_ Hs]. eapply Forall_lookup_1 in Hs; eauto.
  assert (c1 = c) as -> by congruence.
  destruct Hs as [_ Hv]. split; [|done]. split; [by eexists | done].
Qed.

Lemma on_event_hook_invariant event w :
  invariant w -> invariant (fst (fst (Music.on_event_hook event w))).
Proof.
  intros Hinv.
  assert (steady (modify (set_next true))) by (by intros c Hc).
  destruct event; simpl; first [done | by apply with_controller_local].
Qed.

Lemma cog_move_invariant w w' : invariant w -> cog_move w w' -> invariant w'.
Proof.
  intros Hinv Hmove. revert Hinv.
  destruct Hmove as [gid w0 w1 Hmove|name ctx w0|b a member w0|event w0|i w0|a p w0|w0];
    intros Hinv.
  - by destruct (command_move_local gid w0 w1 Hinv Hmove).
  - by eapply invariant_ext.
  - by apply press_invariant.
  - by apply on_event_hook_invariant.
  - by apply step_task_invariant.
  - by apply player_update_invariant.
  - destruct Hinv as [_ Hs]. split; [|done]. simpl. apply map_Forall_empty.
Qed.

Lemma reached_invariant w : reached w -> invariant w.
Proof.
  intros (players & draws & Hrtc).
  assert (H0 : invariant (Music.init players draws)).
  { split; simpl; [apply map_Forall_empty | constructor]. }
  revert H0. induction Hrtc as [|w1 w2 w3 Hstep _ IH]; [done|].
  intros H1. apply IH. by eapply cog_move_invariant.
Qed.

(** ** What holds of every cog that the moves reach *)

Lemma example_cog2_reached : reached example_cog2.
Proof.
  exists example_players, [].
  eapply rtc_l; [|eapply rtc_l; [|apply rtc_refl]].
  - apply (move_command 1), (move_volume 1 example_context 30). reflexivity.
  - apply (move_command 2), (move_volume 2 example_context2 10). reflexivity.
Qed.

(** X9. The volume of a controller never leaves the range of the [volume]
    command: in every cog that commands, presses, node events, loop steps,
    player refreshes and unloads reach from a new cog, every controller
    object has its volume between 0 and 200. *)
Theorem volume_stays_in_range (w : MusicCog) (a : nat) (c : MusicController) :
  reached w -> heap w !! a = Some c -> 0 <= volume c <= 200.
Proof.
  intros Hr Hc. destruct (reached_invariant w Hr) as [_ Hs].
  eapply Forall_lookup_1 in Hs; eauto. by destruct Hs.
Qed.

Lemma volume_stays_in_range_witness :
  exists c,
    heap (fst (fst (Music.volume example_context 500 example_cog2))) !! 0%nat = Some c /\
    volume c = 200 /\ 0 <= volume c <= 200.
Proof.
  eexists. split; [reflexivity|]. split; [reflexivity|].
  eapply (volume_stays_in_range
            (fst (fst (Music.volume example_context 500 example_cog2))) 0%nat).
  - destruct example_cog2_reached as (players & draws & H).
    exists players, draws. eapply rtc_r; [exact H|].
    apply (move_command 1), (move_volume 1 example_context 500). reflexivity.
  - reflexivity.
Defined.

(** X10. The dictionary of the cog leads every guild to a controller made
    for that guild, and no two guilds to the same object. *)
Theorem controller_is_of_its_guild (w : MusicCog) (gid : Z) (a : nat) :
  reached w -> controllers w !! gid = Some a ->
  (exists c, heap w !! a = Some c /\ guild_id c = gid) /\
  (forall gid', controllers w !! gid' = Some a -> gid' = gid).
Proof.
  intros Hr Ha. destruct (reached_invariant w Hr) as [Hmap _].
  destruct (Hmap _ _ Ha) as (c & Hc & Hg). split; [by exists c|].
  intros gid' Ha'. destruct (Hmap _ _ Ha') as (c' & Hc' & Hg'). congruence.
Qed.

Lemma controller_is_of_its_guild_witness :
  (exists c, heap example_cog2 !! 1%nat = Some c /\ guild_id c = 2) /\
  (forall gid', controllers example_cog2 !! gid' = Some 1%nat -> gid' = 2).
Proof.
  apply (controller_is_of_its_guild example_cog2 2 1%nat).
  - exact example_cog2_reached.
  - reflexivity.
Defined.

(** X11. A command stays within its guild: run in guild [gid], whatever it
    does and however it ends, it leaves the entries of the other guilds and
    the controller objects they lead to as they are. *)
Theorem commands_stay_in_their_guild (w w' : MusicCog) (gid gid' : Z) :
  reached w -> command_move gid w w' -> gid' <> gid ->
  controllers w' !! gid' = controllers w !! gid' /\
  (forall a, controllers w !! gid' = Some a -> heap w' !! a = heap w !! a).
Proof.
  intros Hr Hmove Hne.
  destruct (command_move_local gid w w' (reached_invariant w Hr) Hmove) as [_ Hap].
  by apply Hap.
Qed.

Lemma commands_stay_in_their_guild_witness :
  let w' := fst (fst (Music.volume example_context 500 example_cog2)) in
  controllers w' !! 2 = Some 1%nat /\
  heap w' !! 1%nat = heap example_cog2 !! 1%nat /\
  (volume <$> heap w' !! 0%nat) = Some 200 /\
  (volume <$> heap w' !! 1%nat) = Some 10.
Proof.
  intros w'.
  destruct (commands_stay_in_their_guild example_cog2 w' 1 2) as [Hc Hh].
  - exact example_cog2_reached.
  - apply (move_volume 1 example_context 500). reflexivity.
  - done.
  - split; [by rewrite Hc|]. split; [by apply Hh|]. split; reflexivity.
Defined.

(** ** What the commands never write *)

(** X12. No command writes the guild id, the player, the current track or
    the finish event of its controller, however it ends: the current track
    is assigned by the controller loop alone and the event is set by the
    node hook alone. *)
Theorem commands_leave_playback_alone (ctx : Context) :
  (forall v, preserves playback (MusicBody.volume ctx v)) /\
  preserves playback (MusicBody.repeat ctx) /\
  preserves playback (MusicBody.queue_loop ctx) /\
  preserves playback (MusicBody.pause ctx) /\
  preserves playback (MusicBodyExt.resume ctx) /\
  preserves playback (MusicBody.skip ctx) /\
  preserves playback (MusicBody.stop ctx) /\
  preserves playback (MusicBody.disconnect ctx) /\
  preserves playback (MusicBodyExt.queue_clear ctx) /\
  (forall draws, preserves playback (MusicBody.queue_shuffle ctx draws)) /\
  (forall s d, preserves playback (MusicBody.queue_move ctx s d)) /\
  (forall i, preserves playback (MusicBody.queue_remove ctx i)) /\
  (forall vc, preservesX playback (MusicBodyX.connect ctx vc)) /\
  (forall tracks, preservesX playback (MusicBodyX.play ctx tracks)) /\
  (forall secs pos, preservesX playback (MusicBodyX.seek ctx secs pos)) /\
  (forall td name now, preservesX playback (Display.queue_display td ctx name now)).
Proof.
  split; [|by apply commands_preserve].
  intros v.
  pose proof (preserves_show_menu playback (fun _ _ => eq_refl) ctx).
  unfold MusicBody.volume, MusicBody.player_call, reply. frame.
Qed.

(** ** The loop task of a controller without a channel *)

Section LoopFailure.

Import ControllerLoop.

Lemma step_task_returns i a pc c c' effs pc' w :
  tasks w !! i = Some (a, Running pc) -> heap w !! a = Some c ->
  ControllerLoop.loop_step pc c = (c', effs, Ret pc') ->
  exists w', EventLoop.step_task i w = (w', effs) /\
    tasks w' !! i = Some (a, Running pc') /\ heap w' !! a = Some c'.
Proof.
  intros Hi Ha Hstep. unfold EventLoop.step_task. rewrite Hi, Ha, Hstep.
  eexists. split; [done|]. simpl. split.
  - apply list_lookup_insert_eq. by eapply lookup_lt_Some.
  - apply list_lookup_insert_eq. by eapply lookup_lt_Some.
Qed.

Lemma step_task_raises i a pc c c' effs e w :
  tasks w !! i = Some (a, Running pc) -> heap w !! a = Some c ->
  ControllerLoop.loop_step pc c = (c', effs, Raise e) ->
  exists w', EventLoop.step_task i w = (w', effs) /\
    tasks w' !! i = Some (a, Failed e) /\ heap w' !! a = Some c'.
Proof.
  intros Hi Ha Hstep. unfold EventLoop.step_task. rewrite Hi, Ha, Hstep.
  eexists. split; [done|]. simpl. split.
  - apply list_lookup_insert_eq. by eapply lookup_lt_Some.
  - apply list_lookup_insert_eq. by eapply lookup_lt_Some.
Qed.

Lemma task_steps_failed n i a e w :
  tasks w !! i = Some (a, Failed e) -> task_steps n i w = (w, []).
Proof.
  intros Hi. induction n as [|n IH]; [done|].
  simpl. unfold EventLoop.step_task. rewrite Hi. by rewrite IH.
Qed.

(** X13. A controller that [connect] never touched has no channel to
    announce in.  Its loop task sets the volume, takes the first item of
    the queue, starts it on the player, and then fails on
    [self.channel.send] with an [AttributeError]; the task is over, and no
    later step of it plays anything, whatever is queued. *)
Theorem loop_dies_without_channel (w : MusicCog) (i a : nat) (c : MusicController)
    (x : TrackRef) (q : list TrackRef) :
  tasks w !! i = Some (a, Running AtStart) ->
  heap w !! a = Some c ->
  channel c = None -> is_Some (player c) -> is_single_loop c = false ->
  queue c = x :: q ->
  exists w5,
    task_steps 5 i w = (w5, [PlayerSetVolume (volume c); PlayerPlay x]) /\
    tasks w5 !! i = Some (a, Failed AttributeError) /\
    heap w5 !! a = Some (set_current_track x (set_queue q (set_next false c))) /\
    forall n, task_steps n i w5 = (w5, []).
Proof.
  intros Hi Ha Hch [p Hp] Hsingle Hq.
  destruct (step_task_returns i a AtStart c c [PlayerSetVolume (volume c)] AtClear w Hi Ha)
    as (w1 & Hs1 & Hi1 & Ha1).
  { unfold ControllerLoop.loop_step, MusicBody.player_call, bind, read. by rewrite Hp. }
  destruct (step_task_returns i a AtClear c (set_next false c) [] AtGet w1 Hi1 Ha1)
    as (w2 & Hs2 & Hi2 & Ha2).
  { unfold ControllerLoop.loop_step, bind, read, modify. simpl. by rewrite Hsingle. }
  destruct (step_task_returns i a AtGet _ (set_current_track x (set_queue q (set_next false c)))
              [] AtPlay w2 Hi2 Ha2) as (w3 & Hs3 & Hi3 & Ha3).
  { unfold ControllerLoop.loop_step, bind, queue_get, modify. simpl. by rewrite Hq. }
  destruct (step_task_returns i a AtPlay _ (set_current_track x (set_queue q (set_next false c)))
              [PlayerPlay x] AtSend w3 Hi3 Ha3) as (w4 & Hs4 & Hi4 & Ha4).
  { unfold ControllerLoop.loop_step, MusicBody.player_call, bind, read. simpl.
    by rewrite Hp. }
  destruct (step_task_raises i a AtSend _ (set_current_track x (set_queue q (set_next false c)))
              [] AttributeError w4 Hi4 Ha4) as (w5 & Hs5 & Hi5 & Ha5).
  { unfold ControllerLoop.loop_step, bind, read. simpl. by rewrite Hch. }
  exists w5. split; [|split; [done|split; [done|]]].
  - simpl. rewrite Hs1, Hs2, Hs3, Hs4, Hs5. done.
  - intros n. by eapply task_steps_failed.
Qed.

End LoopFailure.

Lemma loop_dies_without_channel_witness :
  exists w5 t,
    example_track "A" = Some t /\
    task_steps 5 0 example_cog_played
    = (w5, [PlayerSetVolume 50; PlayerPlay (Some (MusicBodyX.with_requester example_user t))]) /\
    tasks w5 !! 0%nat = Some (0%nat, ControllerLoop.Failed AttributeError) /\
    task_steps 3 0 w5 = (w5, []).
Proof.
  destruct (loop_dies_without_channel example_cog_played 0 0
              (set_menu (InteractiveMenu.set_running true
                 (InteractiveMenu.set_message (Some {| message_channel := 10 |})
                    (InteractiveMenu.set_menu_ctx (Some example_context)
                       InteractiveMenu.init)))
                 (set_queue [Some (MusicBodyX.with_requester example_user
                    {| track_id := "A"; title := "A"; uri := "A"; duration := 1000;
                       thumb := None; requester := example_user |})]
                    (MusicController_init example_player 1)))
              (Some (MusicBodyX.with_requester example_user
                    {| track_id := "A"; title := "A"; uri := "A"; duration := 1000;
                       thumb := None; requester := example_user |})) [])
    as (w5 & Hsteps & Htask & _ & Hdead); try reflexivity.
  - by eexists.
  - exists w5. eexists. split; [reflexivity|]. split; [exact Hsteps|]. split; [exact Htask|].
    apply Hdead.
Defined.

(** ** [connect] and [play] *)

Lemma set_queue_same c : set_queue (queue c) c = c.
Proof. by destruct c. Qed.

Lemma put_all_run ctx ts : forall c,
  MusicBodyX.put_all ctx ts c
  = (set_queue (queue c ++ map (fun t => Some (MusicBodyX.with_requester (author ctx) t)) ts) c,
     [], Ret tt).
Proof.
  induction ts as [|t ts IH]; intros c; simpl.
  - by rewrite app_nil_r, set_queue_same.
  - unfold bindX, lift, queue_put, modify. rewrite IH. simpl.
    by rewrite <- app_assoc.
Qed.

(** X14. What [play] puts into the queue, once the search has answered.
    A playlist is enqueued whole, in its order, behind what was queued; of
    a list of results only the first is; every new item carries the
    invoking member as its requester.  The reply comes after the last item
    is queued and before the menu is shown.  When nothing was found the
    controller is left as it was. *)
Theorem play_enqueues (ctx : Context) (c : MusicController) :
  MusicBodyX.play ctx NoTracks c = (c, [Out (Reply "Could not find any songs.")], Ret tt) /\
  (forall name ts,
     let c1 := set_queue (queue c ++ map (fun t => Some (MusicBodyX.with_requester (author ctx) t)) ts) c in
     MusicBodyX.play ctx (TrackPlaylist name ts) c
     = (fst (fst (MusicBody.show_menu ctx c1)),
        Out (Reply ("Added the playlist " +:+ name +:+ " with "
                    +:+ pretty (Z.of_nat (length ts)) +:+ " songs to the queue."))
          :: map Out (snd (fst (MusicBody.show_menu ctx c1))),
        snd (MusicBody.show_menu ctx c1)) /\
     queue (fst (fst (MusicBodyX.play ctx (TrackPlaylist name ts) c))) = queue c1) /\
  (forall first others,
     let c1 := set_queue (queue c ++ [Some (MusicBodyX.with_requester (author ctx) first)]) c in
     MusicBodyX.play ctx (TrackList first others) c
     = (fst (fst (MusicBody.show_menu ctx c1)),
        Out (Reply ("Added " +:+ title first +:+ " to the queue."))
          :: map Out (snd (fst (MusicBody.show_menu ctx c1))),
        snd (MusicBody.show_menu ctx c1)) /\
     queue (fst (fst (MusicBodyX.play ctx (TrackList first others) c))) = queue c1).
Proof.
  pose proof (preserves_show_menu queue (fun _ _ => eq_refl) ctx) as Hmenu.
  split; [done|]. split.
  - intros name ts c1.
    assert (Hrun : MusicBodyX.play ctx (TrackPlaylist name ts) c
      = (fst (fst (MusicBody.show_menu ctx c1)),
         Out (Reply ("Added the playlist " +:+ name +:+ " with "
                     +:+ pretty (Z.of_nat (length ts)) +:+ " songs to the queue."))
           :: map Out (snd (fst (MusicBody.show_menu ctx c1))),
         snd (MusicBody.show_menu ctx c1))).
    { unfold MusicBodyX.play. unfold bindX at 1. rewrite put_all_run. fold c1.
      unfold bindX, MusicBodyX.replyX, emitX, lift.
      by destruct (MusicBody.show_menu ctx c1) as [[c2 effs] [[]|e|]]. }
    split; [exact Hrun|]. rewrite Hrun. apply Hmenu.
  - intros first others c1.
    assert (Hrun : MusicBodyX.play ctx (TrackList first others) c
      = (fst (fst (MusicBody.show_menu ctx c1)),
         Out (Reply ("Added " +:+ title first +:+ " to the queue."))
           :: map Out (snd (fst (MusicBody.show_menu ctx c1))),
         snd (MusicBody.show_menu ctx c1))).
    { unfold MusicBodyX.play, bindX, MusicBodyX.replyX, emitX, lift, queue_put, modify.
      fold c1. by destruct (MusicBody.show_menu ctx c1) as [[c2 effs] [[]|e|]]. }
    split; [exact Hrun|]. rewrite Hrun. apply Hmenu.
Qed.

(** X15. [connect] with a voice channel, given or the member's own, looks
    the controller up, makes the channel of the command the channel of the
    controller, replies and then connects the player; the channel given
    wins over the member's own.  Without either it replies and returns
    before the lookup: the cog is left as it was and no controller is
    made. *)
Theorem connect_sets_channel (ctx : Context) (av : option VoiceChannel) (w : MusicCog) :
  wf w ->
  MusicExt.connect ctx None None w
  = (w, [Out (Reply "No channel to join. Please either specify the channel or join one.")],
     Ret tt) /\
  (forall vc, MusicExt.connect ctx None (Some vc) w = MusicExt.connect ctx (Some vc) av w) /\
  (forall vc,
     let w1 := fst (Music.get_controller (guild ctx) w) in
     let a := snd (Music.get_controller (guild ctx) w) in
     exists c,
       heap w1 !! a = Some c /\
       MusicExt.connect ctx (Some vc) av w
       = (set_heap (<[a := set_channel (Some (ctx_channel ctx)) c]> (heap w1)) w1,
          [Out (Reply ("Connecting to `" +:+ voice_name vc +:+ "`..."));
           PlayerConnect (voice_id vc)],
          Ret tt)).
Proof.
  intros Hwf. split; [done|]. split; [done|].
  intros vc w1 a.
  destruct (get_controller_spec (guild ctx) w Hwf) as (c & _ & Hc & [p Hp] & _).
  exists c. split; [done|]. subst w1 a.
  unfold MusicExt.connect, MusicExt.with_controllerX, MusicExt.at_address.
  destruct (Music.get_controller (guild ctx) w) as [w1 a]. simpl in *.
  rewrite Hc. unfold MusicBodyX.connect, MusicBodyX.player_callX, MusicBodyX.replyX,
    bindX, lift, emitX, modify, read. simpl. by rewrite Hp.
Qed.

Lemma connect_sets_channel_witness :
  exists c,
    heap (fst (fst (MusicExt.connect example_context None (Some example_voice) example_cog)))
      !! 0%nat = Some c /\
    channel c = Some 10 /\
    snd (fst (MusicExt.connect example_context None (Some example_voice) example_cog))
    = [Out (Reply "Connecting to `General`..."); PlayerConnect 5].
Proof.
  destruct (connect_sets_channel example_context None example_cog (wf_init _ _))
    as (_ & Hsame & Hrun).
  destruct (Hrun example_voice) as (c & Hc & Heq).
  rewrite (Hsame example_voice), Heq.
  eexists. split; [reflexivity|]. split; reflexivity.
Defined.

(** X16. [play] by a member who is in no voice channel: the controller of
    the guild is looked up, and made with its loop task when the guild has
    none; nothing is searched and nothing is queued.  When the player is
    not connected the member is told that there is no channel to join. *)
Theorem play_needs_voice (ctx : Context) (track : string)
    (get_tracks : string -> SearchResult) (w : MusicCog) :
  wf w ->
  let w1 := fst (Music.get_controller (guild ctx) w) in
  let a := snd (Music.get_controller (guild ctx) w) in
  exists c p,
    heap w1 !! a = Some c /\ player c = Some p /\
    MusicExt.play ctx None track get_tracks w
    = (w1,
       if is_connected p then []
       else [Out (Reply "No channel to join. Please either specify the channel or join one.")],
       Ret tt).
Proof.
  intros Hwf w1 a.
  destruct (get_controller_spec (guild ctx) w Hwf) as (c & _ & Hc & [p Hp] & _).
  exists c, p. split; [done|]. split; [done|]. subst w1 a.
  unfold MusicExt.play.
  destruct (Music.get_controller (guild ctx) w) as [w1 a]. simpl in *.
  rewrite Hc, Hp. by destruct (is_connected p).
Qed.

Lemma play_needs_voice_witness :
  let w' := fst (fst (MusicExt.play example_context None "A" example_found example_cog)) in
  length (heap w') = 1%nat /\ length (tasks w') = 1%nat /\
  (queue <$> heap w' !! 0%nat) = Some [] /\
  snd (fst (MusicExt.play example_context None "A" example_found example_cog)) = [].
Proof.
  intros w'.
  destruct (play_needs_voice example_context "A" example_found example_cog (wf_init _ _))
    as (c & p & Hc & Hp & Heq).
  subst w'. rewrite Heq. simpl in Hc. injection Hc as <-. injection Hp as <-.
  repeat split; reflexivity.
Defined.

(** ** The displays *)

Lemma string_append_assoc (s1 s2 s3 : string) :
  ((s1 +:+ s2) +:+ s3 = s1 +:+ (s2 +:+ s3))%string.
Proof.
  induction s1 as [|a s1 IH]; [done|].
  change (String a ((s1 +:+ s2) +:+ s3) = String a (s1 +:+ (s2 +:+ s3)))%string.
  by rewrite IH.
Qed.

Lemma string_append_nil_r (s : string) : (s +:+ "" = s)%string.
Proof.
  induction s as [|a s IH]; [done|].
  change (String a (s +:+ "") = String a s)%string. by rewrite IH.
Qed.

Section Displays.

Variable timedelta_str : Z -> string.

Lemma search_loop_numbered tracks : forall index description,
  0 <= index <= 9 ->
  Display.search_loop timedelta_str index tracks description
  = (description +:+
     Listing.numbered (Display.search_line timedelta_str) index
       (take (Z.to_nat (10 - index)) tracks))%string.
Proof.
  induction tracks as [|t tracks IH]; intros index description Hi.
  - simpl. rewrite take_nil. simpl. by rewrite string_append_nil_r.
  - replace (Z.to_nat (10 - index)) with (S (Z.to_nat (9 - index))) by lia.
    simpl. destruct (index =? 9) eqn:Hnine.
    + apply Z.eqb_eq in Hnine. subst index. simpl.
      by rewrite string_append_nil_r.
    + apply Z.eqb_neq in Hnine. rewrite IH by lia.
      replace (10 - (index + 1)) with (9 - index) by lia.
      by rewrite string_append_assoc.
Qed.

(** X17. [search] lists the first ten results, in the order of the node
    and numbered from 1, in one embed; an eleventh result and the ones
    after it are not listed.  It looks up no controller and leaves the cog
    as it is. *)
Theorem search_lists_first_ten (ctx : Context) (utcnow : Z) (tracks : list Track)
    (w : MusicCog) :
  Display.search timedelta_str ctx utcnow (Some tracks) w
  = (w,
     [ReplyEmbed
        (Display.set_description
           (Listing.numbered (Display.search_line timedelta_str) 0 (take 10 tracks))
           (Display.get_default_embed utcnow (Some (author ctx)) "Top 10 search results"))],
     Ret tt).
Proof.
  unfold Display.search. by rewrite search_loop_numbered by lia.
Qed.

Section QueuePages.

Variables (c : MusicController) (guild_name : string) (utcnow : nat -> Z).
Variables (ctx : Context) (cur : Track).

Hypothesis Hcur : current_track c = Some cur.

Lemma queue_step_at (k : nat) (j index : Z) (t : Track) (st : Display.Paging) :
  index = 5 * Z.of_nat k + j -> 0 <= j < 5 ->
  Display.queue_step timedelta_str c guild_name utcnow ctx index (Some t) st
  = (let st1 :=
       if j =? 0 then
         {| Display.text := Display.text st;
            Display.embed :=
              Some (Display.add_field "Now playing:"
                      (Display.track_text timedelta_str cur) false
                      (Display.get_default_embed (utcnow (Display.readings st))
                         (Some (author ctx)) ("Queue for " +:+ guild_name)));
            Display.pages := Display.pages st;
            Display.readings := S (Display.readings st) |}
       else st in
     let st2 :=
       {| Display.text := Display.text st1 +:+ Display.queue_line timedelta_str index t;
          Display.embed := Display.embed st1;
          Display.pages := Display.pages st1;
          Display.readings := Display.readings st1 |} in
     if j =? 4 then e ← Display.embed st2; Some (Display.close_page c e st2)
     else Some st2).
Proof.
  intros Hindex Hj.
  assert (Hmod : index `mod` 5 = j).
  { subst index. replace (5 * Z.of_nat k + j) with (j + Z.of_nat k * 5) by lia.
    rewrite Z_mod_plus_full. apply Z.mod_small. lia. }
  unfold Display.queue_step. rewrite Hmod, Hcur.
  by destruct (j =? 0).
Qed.

(** The loop of [queue] over the queue from a page boundary on, with the
    page it leaves open closed. *)
Lemma queue_loop_runs n : forall tracks k index P,
  (length tracks <= n)%nat -> index = 5 * Z.of_nat k ->
  (st ← Display.queue_loop timedelta_str c guild_name utcnow ctx index (Some <$> tracks)
          {| Display.text := ""; Display.embed := None; Display.pages := P;
             Display.readings := k |};
   match Display.embed st with
   | Some e => Some (Display.pages (Display.close_page c e st))
   | None => Some (Display.pages st)
   end)
  = Some (P ++ Listing.queue_pages_from
                 (Listing.queue_page timedelta_str c guild_name utcnow ctx cur) k
                 (Listing.chunks n tracks)).
Proof.
  induction n as [|n IH]; intros tracks k index P Hlen Hindex.
  { destruct tracks; [|simpl in Hlen; lia]. simpl. by rewrite app_nil_r. }
  assert (Hnil : Listing.chunks n [] = []) by (by destruct n).
  destruct tracks as [|t0 [|t1 [|t2 [|t3 [|t4 rest]]]]];
    [simpl; by rewrite app_nil_r|..];
    cbn [fmap list_fmap Display.queue_loop Listing.chunks take drop
         Listing.queue_pages_from];
    rewrite (queue_step_at k 0 index) by lia; cbn -[Z.mul Z.add];
    try (rewrite (queue_step_at k 1 (index + 1)) by lia; cbn -[Z.mul Z.add]);
    try (rewrite (queue_step_at k 2 (index + 1 + 1)) by lia; cbn -[Z.mul Z.add]);
    try (rewrite (queue_step_at k 3 (index + 1 + 1 + 1)) by lia; cbn -[Z.mul Z.add]);
    try (rewrite (queue_step_at k 4 (index + 1 + 1 + 1 + 1)) by lia; cbn -[Z.mul Z.add]).
  1-4: rewrite ?Hnil; cbn -[Z.mul Z.add]; unfold Display.close_page, Listing.queue_page;
       cbn -[Z.mul Z.add]; subst index;
       by rewrite ?string_append_assoc, ?string_append_nil_r.
  unfold Display.close_page at 1. cbn -[Z.mul Z.add].
  rewrite (IH rest (S k) (index + 1 + 1 + 1 + 1 + 1)) by (simpl in Hlen; lia).
  rewrite <- app_assoc. unfold Listing.queue_page. cbn -[Z.mul Z.add]. subst index.
  by rewrite ?string_append_assoc, ?string_append_nil_r.
Qed.

Lemma chunks_concat n : forall tracks,
  (length tracks <= n)%nat ->
  concat (Listing.chunks n tracks) = tracks /\
  Forall (fun run => (0 < length run <= 5)%nat) (Listing.chunks n tracks).
Proof.
  induction n as [|n IH]; intros tracks Hlen.
  { destruct tracks; [done|simpl in Hlen; lia]. }
  destruct tracks as [|t tracks]; [done|].
  cbn [Listing.chunks concat].
  destruct (IH (drop 5 (t :: tracks))) as [Hcat Hall].
  { rewrite length_drop. simpl in *. lia. }
  split.
  - by rewrite Hcat, take_drop.
  - constructor; [|done]. rewrite length_take. cbn [length]. lia.
Qed.

(** X18. The [queue] display of a queue that is not empty: the queue is
    cut into runs of five in its order, and every run gets one page, which
    names the current track, lists the run with the positions the tracks
    have in the queue, counted from 1, and shows the two loop flags; the
    timestamp of a page is the reading of the clock made when the page was
    begun.  No track is left out or listed twice, and the controller is
    left as it is. *)
Theorem queue_lists_runs_of_five (tracks : list Track) :
  queue c = Some <$> tracks -> tracks <> [] ->
  let runs := Listing.chunks (length tracks) tracks in
  Display.queue_display timedelta_str ctx guild_name utcnow c
  = (c,
     [PagesStart
        (Listing.queue_pages_from
           (Listing.queue_page timedelta_str c guild_name utcnow ctx cur) 0 runs)],
     Ret tt) /\
  concat runs = tracks /\
  Forall (fun run => (0 < length run <= 5)%nat) runs.
Proof.
  intros Hq Hne runs.
  split; [|by apply chunks_concat].
  assert (Hpages : Display.queue_pages timedelta_str c guild_name utcnow ctx
                   = Some (Listing.queue_pages_from
                       (Listing.queue_page timedelta_str c guild_name utcnow ctx cur)
                       0 runs)).
  { unfold Display.queue_pages. rewrite Hq.
    pose proof (queue_loop_runs (length tracks) tracks 0 0 [] (le_n _) eq_refl) as H.
    destruct (Display.queue_loop _ _ _ _ _ _ _ _) as [st|]; [|done].
    simpl in *. subst runs. by destruct (Display.embed st). }
  assert (Hempty : empty (queue c) = false).
  { rewrite Hq. by destruct tracks. }
  unfold Display.queue_display. rewrite Hempty, Hpages.
  by destruct (player c).
Qed.

End QueuePages.

End Displays.

Lemma queue_lists_runs_of_five_witness :
  exists p1 p2,
    Display.queue_display (fun _ => "0:00:01"%string) example_context "guild"
      (fun n => Z.of_nat n) example_playing
    = (example_playing, [PagesStart [p1; p2]], Ret tt) /\
    embed_timestamp p1 = 0 /\ embed_timestamp p2 = 1 /\
    length (embed_fields p1) = 3%nat /\ length (embed_fields p2) = 3%nat.
Proof.
  destruct (queue_lists_runs_of_five (fun _ => "0:00:01"%string) example_playing "guild"
              (fun n => Z.of_nat n) example_context (example_song "A") eq_refl
              example_songs eq_refl) as (Heq & _ & _); [done|].
  rewrite Heq. eexists _, _. split; [reflexivity|]. repeat split; reflexivity.
Defined.
